(** * Uninitialized storage-pointer access analysis

    A shallow embedding of [libsolidity/analysis/ControlFlowAnalyzer.cpp]:
    the worklist loop of [ControlFlowAnalyzer::checkUninitializedAccess],
    the comparator and the emission loop that follow it, and the driver
    [ControlFlowAnalyzer::analyze].

    Sets of pointers ([std::set<T const*>]) are [gset]s, the map
    [nodeInfos] is a [gmap], the stack [nodesToTraverse] is a list whose
    head is the top.  The loop [while (!nodesToTraverse.empty())] is
    unrolled under a fuel bound; [None] means the bound was reached with
    the stack still non-empty. *)

From Stdlib Require Import ZArith NArith Lia.
From stdpp Require Import base option list sorting relations gmap sets strings.

Local Open Scope N_scope.

Set Warnings "-clear-no-such-hyp".

(** ** Data model *)

(** [langutil::SourceLocation]: two offsets and the name of the source. *)
Record SourceLocation := mkLoc {
  loc_start : Z;
  loc_end : Z;
  loc_source : string
}.

(** An [ASTNode] as the analyzer sees it: [id()] and [location()]. *)
Record ASTNode := mkASTNode {
  node_id : N;
  node_location : SourceLocation
}.

(** A [VariableDeclaration]: [id()], [location()] and the answer of
    [type()->dataStoredIn(DataLocation::Storage)]. *)
Record VariableDeclaration := mkDecl {
  decl_id : N;
  decl_location : SourceLocation;
  decl_dataStoredInStorage : bool
}.

(** [VariableOccurrence::Kind], the four cases of the [switch]. *)
Inductive Kind := Assignment | InlineAssembly | Access | Declaration.

(** A [VariableOccurrence]: [declaration()], [kind()] and [occurrence()],
    the syntax node it is bound to, [None] for a null pointer. *)
Record VariableOccurrence := mkOcc {
  declaration : VariableDeclaration;
  kind : Kind;
  occurrence : option ASTNode
}.

(** A [CFGNode const*]. *)
Definition NodePtr := positive.

(** A [CFGNode]: the vector [variableOccurrences] and the vector [exits]. *)
Record CFGNode := mkNode {
  variableOccurrences : list VariableOccurrence;
  exits : list NodePtr
}.

(** A [VariableOccurrence const*].  [&variableOccurrence] is the address of
    an element of a block's vector: the block, the position in the vector,
    and (the graph being immutable) the element found there.  Two pointers
    are equal when they denote the same slot. *)
Record OccPtr := mkPtr {
  ptr_node : NodePtr;
  ptr_index : nat;
  pointee : VariableOccurrence
}.

(** [FunctionDefinition] and the [FunctionFlow] the graph keeps for it. *)
Record FunctionDefinition := mkFun {
  fun_id : N;
  isImplemented : bool
}.

Record FunctionFlow := mkFlow {
  entry : NodePtr;
  exit : NodePtr
}.

(** The [CFG] object [m_cfg]: dereferencing a node pointer, and
    [functionFlow]. *)
Record CFG := mkCFG {
  node : NodePtr -> CFGNode;
  functionFlow : FunctionDefinition -> FunctionFlow
}.

(** *** Decidable equality and countability, for [gset] and [gmap] *)

#[global] Instance SourceLocation_eq_dec : EqDecision SourceLocation.
Proof. solve_decision. Defined.
#[global] Instance ASTNode_eq_dec : EqDecision ASTNode.
Proof. solve_decision. Defined.
#[global] Instance VariableDeclaration_eq_dec : EqDecision VariableDeclaration.
Proof. solve_decision. Defined.
#[global] Instance Kind_eq_dec : EqDecision Kind.
Proof. solve_decision. Defined.
#[global] Instance VariableOccurrence_eq_dec : EqDecision VariableOccurrence.
Proof. solve_decision. Defined.
#[global] Instance OccPtr_eq_dec : EqDecision OccPtr.
Proof. solve_decision. Defined.

#[global] Instance SourceLocation_countable : Countable SourceLocation.
Proof.
  refine (inj_countable' (fun l => (loc_start l, loc_end l, loc_source l))
            (fun t => mkLoc t.1.1 t.1.2 t.2) _).
  by intros [].
Defined.

#[global] Instance ASTNode_countable : Countable ASTNode.
Proof.
  refine (inj_countable' (fun a => (node_id a, node_location a))
            (fun t => mkASTNode t.1 t.2) _).
  by intros [].
Defined.

#[global] Instance VariableDeclaration_countable : Countable VariableDeclaration.
Proof.
  refine (inj_countable'
            (fun d => (decl_id d, decl_location d, decl_dataStoredInStorage d))
            (fun t => mkDecl t.1.1 t.1.2 t.2) _).
  by intros [].
Defined.

#[global] Instance Kind_countable : Countable Kind.
Proof.
  refine (inj_countable'
            (fun k => match k with
                      | Assignment => 0%nat | InlineAssembly => 1%nat
                      | Access => 2%nat | Declaration => 3%nat end)
            (fun n => match n with
                      | 0%nat => Assignment | 1%nat => InlineAssembly
                      | 2%nat => Access | _ => Declaration end) _).
  by intros [].
Defined.

#[global] Instance VariableOccurrence_countable : Countable VariableOccurrence.
Proof.
  refine (inj_countable' (fun o => (declaration o, kind o, occurrence o))
            (fun t => mkOcc t.1.1 t.1.2 t.2) _).
  by intros [].
Defined.

#[global] Instance OccPtr_countable : Countable OccPtr.
Proof.
  refine (inj_countable' (fun p => (ptr_node p, ptr_index p, pointee p))
            (fun t => mkPtr t.1.1 t.1.2 t.2) _).
  by intros [].
Defined.

(** ** The fixpoint engine *)

(** [struct NodeInfo], local to [checkUninitializedAccess]. *)
Record NodeInfo := mkInfo {
  unassignedVariables : gset VariableDeclaration;
  uninitializedVariableAccesses : gset OccPtr
}.

(** A default-constructed [NodeInfo], as [std::map::operator[]] makes one
    for a key it does not hold. *)
Definition emptyInfo : NodeInfo := mkInfo ∅ ∅.

(** [NodeInfo::propagateFrom]: [this] after the two unions, and the
    returned flag. *)
Definition propagateFrom (this _entryNode : NodeInfo) : NodeInfo * bool :=
  let previousUnassignedVariables := size (unassignedVariables this) in
  let previousUninitializedVariableAccessess :=
    size (uninitializedVariableAccesses this) in
  let this' :=
    mkInfo (unassignedVariables this ∪ unassignedVariables _entryNode)
           (uninitializedVariableAccesses this
              ∪ uninitializedVariableAccesses _entryNode) in
  (this',
   bool_decide (previousUnassignedVariables
                < size (unassignedVariables this'))%nat
   || bool_decide (previousUninitializedVariableAccessess
                   < size (uninitializedVariableAccesses this'))%nat).

(** The body of the [switch] for the occurrence at [variableOccurrence],
    acting on [nodeInfo]. *)
Definition visitOccurrence (variableOccurrence : OccPtr) (nodeInfo : NodeInfo)
  : NodeInfo :=
  let d := declaration (pointee variableOccurrence) in
  match kind (pointee variableOccurrence) with
  | Assignment =>
      mkInfo (unassignedVariables nodeInfo ∖ {[d]})
             (uninitializedVariableAccesses nodeInfo)
  | InlineAssembly =>
      mkInfo (unassignedVariables nodeInfo ∖ {[d]})
             (uninitializedVariableAccesses nodeInfo)
  | Access =>
      if bool_decide (d ∈ unassignedVariables nodeInfo) then
        if decl_dataStoredInStorage d then
          mkInfo (unassignedVariables nodeInfo)
                 ({[variableOccurrence]} ∪ uninitializedVariableAccesses nodeInfo)
        else nodeInfo
      else nodeInfo
  | Declaration =>
      mkInfo ({[d]} ∪ unassignedVariables nodeInfo)
             (uninitializedVariableAccesses nodeInfo)
  end.

(** The range-[for] over [currentNode->variableOccurrences]; [i] is the
    position of the head of [occs] in the block's vector. *)
Fixpoint visitOccurrences (currentNode : NodePtr) (i : nat)
    (occs : list VariableOccurrence) (nodeInfo : NodeInfo) : NodeInfo :=
  match occs with
  | [] => nodeInfo
  | o :: rest =>
      visitOccurrences currentNode (S i) rest
        (visitOccurrence (mkPtr currentNode i o) nodeInfo)
  end.

(** The loop state: the map [nodeInfos] and the stack [nodesToTraverse]. *)
Record State := mkState {
  nodeInfos : gmap NodePtr NodeInfo;
  nodesToTraverse : list NodePtr
}.

(** What the reference [nodeInfos[n]] reads. *)
Definition infoAt (infos : gmap NodePtr NodeInfo) (n : NodePtr) : NodeInfo :=
  default emptyInfo (infos !! n).

(** One round of the loop over [currentNode->exits].  [nodeInfo] is a
    reference into the map, so it is read from the map as it stands. *)
Definition propagateToExit (currentNode : NodePtr) (s : State) (exit : NodePtr)
  : State :=
  let nodeInfo := infoAt (nodeInfos s) currentNode in
  let '(exitInfo, grew) := propagateFrom (infoAt (nodeInfos s) exit) nodeInfo in
  mkState (<[exit := exitInfo]> (nodeInfos s))
          (if grew then exit :: nodesToTraverse s else nodesToTraverse s).

(** The body of [while (!nodesToTraverse.empty())]. *)
Definition iteration (cfg : CFG) (s : State) : State :=
  match nodesToTraverse s with
  | [] => s
  | currentNode :: rest =>
      let nodeInfo :=
        visitOccurrences currentNode 0
          (variableOccurrences (node cfg currentNode))
          (infoAt (nodeInfos s) currentNode) in
      fold_left (propagateToExit currentNode)
        (exits (node cfg currentNode))
        (mkState (<[currentNode := nodeInfo]> (nodeInfos s)) rest)
  end.

(** The [while] loop, at most [fuel] rounds. *)
Fixpoint traverse (fuel : nat) (cfg : CFG) (s : State) : option State :=
  match nodesToTraverse s with
  | [] => Some s
  | _ :: _ =>
      match fuel with
      | O => None
      | S fuel' => traverse fuel' cfg (iteration cfg s)
      end
  end.

(** The state before the loop: an empty map, [_entry] pushed. *)
Definition initialState (_entry : NodePtr) : State := mkState ∅ [_entry].

(** ** The error reporter *)

(** Modelled from the spec: the type of a recorded diagnostic
    ([langutil::Error::Type], declared in liblangutil): a warning, a type
    error, or an error of another type. *)
Inductive ErrorType := Warning | TypeError | OtherError.

(** [SecondarySourceLocation]: the [(message, location)] pairs appended. *)
Definition SecondarySourceLocation := list (string * SourceLocation).

Record Error := mkError {
  err_type : ErrorType;
  err_location : SourceLocation;
  err_secondary : SecondarySourceLocation;
  err_message : string
}.

(** The list behind [m_errorReporter.errors()]. *)
Definition ErrorReporter := list Error.

(** Modelled from the spec: [ErrorReporter::typeError] (defined in
    liblangutil) records a type error with a primary location, the
    secondary locations and a message. *)
Definition typeError (_location : SourceLocation)
    (_secondaryLocation : SecondarySourceLocation) (_description : string)
    (reporter : ErrorReporter) : ErrorReporter :=
  reporter ++ [mkError TypeError _location _secondaryLocation _description].

(** Modelled from the spec: [Error::containsOnlyWarnings] (defined in
    liblangutil) holds when no entry of the list is error-level. *)
Definition containsOnlyWarnings (errors : list Error) : bool :=
  forallb (fun e => match err_type e with Warning => true | _ => false end)
    errors.

(** ** The diagnostic emitter and the driver *)

(** What the emitter takes from the C++ standard library.  A
    [std::set<T const*>] is traversed by increasing address, and [std::sort]
    leaves elements none of which is less than the other in an order of its
    choosing; neither is fixed by the program. *)
Record StdLibrary := mkStdLibrary {
  (** the range [begin() .. end()] of a [std::set<VariableOccurrence const*>] *)
  set_range : gset OccPtr -> list OccPtr;
  (** [std::sort(first, last, comp)] *)
  std_sort : (OccPtr -> OccPtr -> bool) -> list OccPtr -> list OccPtr
}.

(** What [std::sort] guarantees of its result for the comparator [less]:
    no element is less than one before it. *)
Definition notAfter (less : OccPtr -> OccPtr -> bool) (a b : OccPtr) : Prop :=
  less b a = false.

#[global] Instance notAfter_dec less a b : Decision (notAfter less a b).
Proof. unfold notAfter. apply _. Defined.

(** The contract of the two library operations. *)
Record Conforming (lib : StdLibrary) : Prop := mkConforming {
  set_range_elements : forall X, set_range lib X ≡ₚ elements X;
  std_sort_permutation : forall less l, std_sort lib less l ≡ₚ l;
  std_sort_sorted : forall less l,
    Total (notAfter less) -> Transitive (notAfter less) ->
    StronglySorted (notAfter less) (std_sort lib less l)
}.

(** One library that meets the contract: sets traversed in the order of
    [elements], sorting by merge sort. *)
Definition referenceLibrary : StdLibrary :=
  mkStdLibrary elements (fun less l => merge_sort (notAfter less) l).

(** Another one: sets traversed in the opposite order. *)
Definition reversedLibrary : StdLibrary :=
  mkStdLibrary (fun X => reverse (elements X))
               (fun less l => merge_sort (notAfter less) l).

Section Analyzer.

(** [static_cast<KindCompareType>(kind)]: the enumerators' values are fixed
    by the declaration of [VariableOccurrence::Kind] in ControlFlowGraph.h;
    the analyzer does not depend on them. *)
Variable kindOrdinal : Kind -> Z.

Variable lib : StdLibrary.

(** The comparator handed to [sort]. *)
Definition occurrenceLess (lhs rhs : OccPtr) : bool :=
  let byDeclaration :=
    if decl_id (declaration (pointee lhs)) <? decl_id (declaration (pointee rhs))
    then true
    else if decl_id (declaration (pointee rhs))
            <? decl_id (declaration (pointee lhs))
    then false
    else (kindOrdinal (kind (pointee lhs)) <? kindOrdinal (kind (pointee rhs)))%Z
  in
  match occurrence (pointee lhs), occurrence (pointee rhs) with
  | Some l, Some r =>
      if node_id l <? node_id r then true
      else if node_id r <? node_id l then false
      else byDeclaration
  | None, Some _ => true
  | Some _, None => false
  | None, None => byDeclaration
  end.

(** The vector [uninitializedAccessesOrdered], after [sort]. *)
Definition uninitializedAccessesOrdered (exitInfo : NodeInfo) : list OccPtr :=
  std_sort lib occurrenceLess
    (set_range lib (uninitializedVariableAccesses exitInfo)).

(** The diagnostic the emission loop builds for one occurrence. *)
Definition diagnosticOf (variableOccurrence : OccPtr) : Error :=
  let o := pointee variableOccurrence in
  let ssl : SecondarySourceLocation :=
    match occurrence o with
    | Some _ => [("The variable was declared here."%string,
                  decl_location (declaration o))]
    | None => []
    end in
  mkError TypeError
    (match occurrence o with
     | Some n => node_location n
     | None => decl_location (declaration o)
     end)
    ssl
    "This variable is of storage pointer type and is accessed without prior assignment.".

(** One round of the emission loop. *)
Definition emit (reporter : ErrorReporter) (variableOccurrence : OccPtr)
  : ErrorReporter :=
  let e := diagnosticOf variableOccurrence in
  typeError (err_location e) (err_secondary e) (err_message e) reporter.

(** [ControlFlowAnalyzer::checkUninitializedAccess]; the reporter is
    threaded through. *)
Definition checkUninitializedAccess (fuel : nat) (cfg : CFG)
    (_entry _exit : NodePtr) (reporter : ErrorReporter) : option ErrorReporter :=
  match traverse fuel cfg (initialState _entry) with
  | None => None
  | Some s =>
      let exitInfo := infoAt (nodeInfos s) _exit in
      if bool_decide (uninitializedVariableAccesses exitInfo = ∅)
      then Some reporter
      else Some (fold_left emit (uninitializedAccessesOrdered exitInfo) reporter)
  end.

(** [ControlFlowAnalyzer::visit(FunctionDefinition const&)]. *)
Definition visit (fuel : nat) (cfg : CFG) (_function : FunctionDefinition)
    (reporter : ErrorReporter) : option ErrorReporter :=
  if isImplemented _function then
    let flow := functionFlow cfg _function in
    checkUninitializedAccess fuel cfg (entry flow) (exit flow) reporter
  else Some reporter.

(** Modelled from the spec: [_astRoot.accept( *this )] (the visitor is
    defined with the syntax tree) reaches the function definitions of the
    tree in source order; [visit] returns [false], so none is entered. *)
Fixpoint accept (fuel : nat) (cfg : CFG) (_astRoot : list FunctionDefinition)
    (reporter : ErrorReporter) : option ErrorReporter :=
  match _astRoot with
  | [] => Some reporter
  | f :: rest =>
      match visit fuel cfg f reporter with
      | None => None
      | Some reporter' => accept fuel cfg rest reporter'
      end
  end.

(** [ControlFlowAnalyzer::analyze]: the reporter afterwards and the
    returned flag. *)
Definition analyze (fuel : nat) (cfg : CFG) (_astRoot : list FunctionDefinition)
    (reporter : ErrorReporter) : option (ErrorReporter * bool) :=
  match accept fuel cfg _astRoot reporter with
  | None => None
  | Some reporter' => Some (reporter', containsOnlyWarnings reporter')
  end.

End Analyzer.

(** ** Notions the properties are stated with *)

(** An edge of the graph: [b] is among the exits of [a]. *)
Definition edge (cfg : CFG) (a b : NodePtr) : Prop := b ∈ exits (node cfg a).

(** [b] can be reached from [a] along edges. *)
Definition reaches (cfg : CFG) : NodePtr -> NodePtr -> Prop := rtc (edge cfg).

(** The pointers to the occurrences of a block, in the order of its vector. *)
Definition occurrencePointers (cfg : CFG) (n : NodePtr) : list OccPtr :=
  imap (mkPtr n) (variableOccurrences (node cfg n)).

(** The pointer denotes a slot of the graph. *)
Definition validPtr (cfg : CFG) (p : OccPtr) : Prop :=
  variableOccurrences (node cfg (ptr_node p)) !! ptr_index p = Some (pointee p).

(** The column "effect on unassigned" of the transfer table: a declaration
    inserts, an assignment or an inline-assembly reference removes, an
    access leaves the set as it is. *)
Definition unassignedEffect (U : gset VariableDeclaration)
    (o : VariableOccurrence) : gset VariableDeclaration :=
  match kind o with
  | Declaration => {[declaration o]} ∪ U
  | Assignment | InlineAssembly => U ∖ {[declaration o]}
  | Access => U
  end.

(** The unassigned set in front of position [i] of a block entered with [U]. *)
Definition unassignedBefore (occs : list VariableOccurrence) (i : nat)
    (U : gset VariableDeclaration) : gset VariableDeclaration :=
  fold_left unassignedEffect (take i occs) U.

(** The only way the engine comes to hold a pointer: it denotes an access
    to a storage-located declaration that is unassigned in front of it, for
    some set the block is entered with. *)
Definition flaggable (cfg : CFG) (p : OccPtr) : Prop :=
  validPtr cfg p /\
  kind (pointee p) = Access /\
  decl_dataStoredInStorage (declaration (pointee p)) = true /\
  exists U, declaration (pointee p)
            ∈ unassignedBefore (variableOccurrences (node cfg (ptr_node p)))
                (ptr_index p) U.

(** The invariant of the worklist loop entered at [_entry]: what is on the
    stack can be reached from [_entry], and a pointer held for a block is
    flaggable, its own block lies between [_entry] and that block. *)
Definition loopInvariant (cfg : CFG) (_entry : NodePtr) (s : State) : Prop :=
  Forall (reaches cfg _entry) (nodesToTraverse s) /\
  forall n p,
    p ∈ uninitializedVariableAccesses (infoAt (nodeInfos s) n) ->
    flaggable cfg p /\
    reaches cfg _entry (ptr_node p) /\ reaches cfg (ptr_node p) n.

(** Ids name syntax nodes and declarations: within the graph, two
    declarations with one id are one declaration, and two bound syntax
    nodes with one id are one node. *)
Definition idsIdentify (cfg : CFG) : Prop :=
  forall n m i j a b,
    variableOccurrences (node cfg n) !! i = Some a ->
    variableOccurrences (node cfg m) !! j = Some b ->
    (decl_id (declaration a) = decl_id (declaration b) ->
     declaration a = declaration b) /\
    (forall na nb, occurrence a = Some na -> occurrence b = Some nb ->
                   node_id na = node_id nb -> na = nb).

(** The sort key of the comparator: unbound occurrences first, bound ones
    by the id of their syntax node; then the declaration's id; then the
    ordinal of the kind. *)
Definition sortKey (kindOrdinal : Kind -> Z) (p : OccPtr) : N * N * Z :=
  (match occurrence (pointee p) with
   | None => 0
   | Some n => N.succ (node_id n)
   end,
   decl_id (declaration (pointee p)),
   kindOrdinal (kind (pointee p))).

(** Lexicographic order on sort keys. *)
Definition keyLe (a b : N * N * Z) : Prop :=
  a.1.1 < b.1.1 \/
  (a.1.1 = b.1.1 /\ (a.1.2 < b.1.2 \/ (a.1.2 = b.1.2 /\ (a.2 <= b.2)%Z))).

(** Its strict part. *)
Definition keyLt (a b : N * N * Z) : Prop :=
  a.1.1 < b.1.1 \/
  (a.1.1 = b.1.1 /\ (a.1.2 < b.1.2 \/ (a.1.2 = b.1.2 /\ (a.2 < b.2)%Z))).

(** ** Notions of the further properties *)

(** A bound on the rounds the worklist loop spends on [n] and on what can
    be reached from it within [k] edges: one round for [n], and those of
    its exits each time one is pushed. *)
Fixpoint weight (cfg : CFG) (k : nat) (n : NodePtr) : nat :=
  match k with
  | O => 1
  | S k' => S (sum_list (weight cfg k' <$> exits (node cfg n)))
  end.

(** The bound for a stack, under a rank of the nodes. *)
Definition stackWeight (cfg : CFG) (rank : NodePtr -> nat)
    (stack : list NodePtr) : nat :=
  sum_list ((fun n => weight cfg (rank n) n) <$> stack).

(** [d] has a [Declaration] occurrence in a block that can be reached
    from [_entry]. *)
Definition declaredFrom (cfg : CFG) (_entry : NodePtr)
    (d : VariableDeclaration) : Prop :=
  exists m i o,
    reaches cfg _entry m /\
    variableOccurrences (node cfg m) !! i = Some o /\
    kind o = Declaration /\ declaration o = d.

(** The declarations a list of occurrences declares, assigns or refers to
    in inline assembly. *)
Definition touched (occs : list VariableOccurrence)
  : gset VariableDeclaration :=
  list_to_set (declaration <$> filter (fun o => kind o <> Access) occs).

(** A second invariant of the worklist loop entered at [_entry]: the stack
    and the keys of the map can be reached from [_entry], and what is held
    as unassigned, or as the declaration of a pending access, has a
    [Declaration] occurrence that can be reached from [_entry]. *)
Definition visitInvariant (cfg : CFG) (_entry : NodePtr) (s : State) : Prop :=
  Forall (reaches cfg _entry) (nodesToTraverse s) /\
  (forall n, is_Some (nodeInfos s !! n) -> reaches cfg _entry n) /\
  (forall n d, d ∈ unassignedVariables (infoAt (nodeInfos s) n) ->
               declaredFrom cfg _entry d) /\
  (forall n p, p ∈ uninitializedVariableAccesses (infoAt (nodeInfos s) n) ->
               declaredFrom cfg _entry (declaration (pointee p))).

(** A third one: a block is waiting on the stack, or each of its exits
    holds the pending accesses the block holds. *)
Definition flowInvariant (cfg : CFG) (s : State) : Prop :=
  forall n,
    n ∈ nodesToTraverse s \/
    forall e, e ∈ exits (node cfg n) ->
      uninitializedVariableAccesses (infoAt (nodeInfos s) n)
        ⊆ uninitializedVariableAccesses (infoAt (nodeInfos s) e).

(** ** Example graphs *)

Module Examples.

(** Ordinals in the order [Declaration, Access, Assignment, InlineAssembly]. *)
Definition ordinal (k : Kind) : Z :=
  match k with
  | Declaration => 0 | Access => 1 | Assignment => 2 | InlineAssembly => 3
  end%Z.

Definition at_ (n : Z) : SourceLocation := mkLoc n (n + 1) "a.sol".

Definition x : VariableDeclaration := mkDecl 10 (at_ 10) true.
Definition y : VariableDeclaration := mkDecl 11 (at_ 11) true.

(** [D d]: the declaration of [d]; [A d n], [R d n]: an assignment to [d],
    a read of [d], at the identifier with id [n]. *)
Definition D (d : VariableDeclaration) : VariableOccurrence :=
  mkOcc d Declaration None.
Definition A (d : VariableDeclaration) (n : N) : VariableOccurrence :=
  mkOcc d Assignment (Some (mkASTNode n (at_ (Z.of_N n)))).
Definition R (d : VariableDeclaration) (n : N) : VariableOccurrence :=
  mkOcc d Access (Some (mkASTNode n (at_ (Z.of_N n)))).

Definition emptyNode : CFGNode := mkNode [] [].

Definition flow12 (_ : FunctionDefinition) : FunctionFlow :=
  mkFlow 1%positive 2%positive.
Definition flow13 (_ : FunctionDefinition) : FunctionFlow :=
  mkFlow 1%positive 3%positive.

(** [1: D(x), R(x) -> 2], exit [2]. *)
Definition straight : CFG :=
  mkCFG (fun n => match n with
                  | 1%positive => mkNode [D x; R x 20] [2%positive]
                  | _ => emptyNode
                  end) flow12.

(** [1: D(x) -> 2: A(x)], exit [2]. *)
Definition declareThenAssign : CFG :=
  mkCFG (fun n => match n with
                  | 1%positive => mkNode [D x] [2%positive]
                  | 2%positive => mkNode [A x 20] []
                  | _ => emptyNode
                  end) flow12.

(** [1: D(x) -> 2: A(x) -> 3], exit [3]. *)
Definition assignedLater : CFG :=
  mkCFG (fun n => match n with
                  | 1%positive => mkNode [D x] [2%positive]
                  | 2%positive => mkNode [A x 20] [3%positive]
                  | _ => emptyNode
                  end) flow13.

(** [1: A(x), D(x), R(x) -> 2], exit [2]. *)
Definition redeclared : CFG :=
  mkCFG (fun n => match n with
                  | 1%positive => mkNode [A x 20; D x; R x 21] [2%positive]
                  | _ => emptyNode
                  end) flow12.

(** [1: A(x), R(x) -> 2], exit [2], entered with [x] unassigned from [3]. *)
Definition assignedFirst : CFG :=
  mkCFG (fun n => match n with
                  | 1%positive => mkNode [A x 20; R x 21] [2%positive]
                  | 3%positive => mkNode [D x] [1%positive]
                  | _ => emptyNode
                  end) (fun _ => mkFlow 3%positive 2%positive).

(** A loop of two blocks, [1: A(y), D(x)] and [2: A(x), D(y)], entered at
    [1] and left from [2] to the exit [3]. *)
Definition twoBlockLoop : CFG :=
  mkCFG (fun n => match n with
                  | 1%positive => mkNode [A y 20; D x] [2%positive]
                  | 2%positive => mkNode [A x 21; D y] [1%positive; 3%positive]
                  | _ => emptyNode
                  end) flow13.

(** The same loop with no edge to the exit [3]. *)
Definition closedLoop : CFG :=
  mkCFG (fun n => match n with
                  | 1%positive => mkNode [A y 20; D x] [2%positive]
                  | 2%positive => mkNode [A x 21; D y] [1%positive]
                  | _ => emptyNode
                  end) flow13.

(** [1: D(x), A(x), R(x) -> 2], exit [2]. *)
Definition initialized : CFG :=
  mkCFG (fun n => match n with
                  | 1%positive => mkNode [D x; A x 20; R x 21] [2%positive]
                  | _ => emptyNode
                  end) flow12.

(** [1: D(x) -> {3 ; 4: R(x) -> 2}], block [3] does not return, exit [2]. *)
Definition revertingArm : CFG :=
  mkCFG (fun n => match n with
                  | 1%positive => mkNode [D x] [3%positive; 4%positive]
                  | 4%positive => mkNode [R x 20] [2%positive]
                  | _ => emptyNode
                  end) flow12.

(** [1: D(x) -> {3: R(x) ; 4 -> 2}], the arm with the access does not
    return, exit [2]. *)
Definition accessInRevertingArm : CFG :=
  mkCFG (fun n => match n with
                  | 1%positive => mkNode [D x] [3%positive; 4%positive]
                  | 3%positive => mkNode [R x 20] []
                  | 4%positive => mkNode [] [2%positive]
                  | _ => emptyNode
                  end) flow12.

(** [1: D(x) -> 3], [3: R(x) -> {4: A(x) -> 3 ; 2}], exit [2]. *)
Definition lateAssignment : CFG :=
  mkCFG (fun n => match n with
                  | 1%positive => mkNode [D x] [3%positive]
                  | 3%positive => mkNode [R x 20] [4%positive; 2%positive]
                  | 4%positive => mkNode [A x 21] [3%positive]
                  | _ => emptyNode
                  end) flow12.

(** [1: D(x), D(y), A(y), R(x), R(y) -> 2], exit [2]. *)
Definition twoVariables : CFG :=
  mkCFG (fun n => match n with
                  | 1%positive =>
                      mkNode [D x; D y; A y 20; R x 21; R y 22] [2%positive]
                  | _ => emptyNode
                  end) flow12.

(** [1: D(z), R(z) -> 2] with [z] not storage-located, exit [2]. *)
Definition z : VariableDeclaration := mkDecl 12 (at_ 12) false.
Definition notStorage : CFG :=
  mkCFG (fun n => match n with
                  | 1%positive => mkNode [D z; R z 20] [2%positive]
                  | _ => emptyNode
                  end) flow12.

(** [1: D(x), D(y), R(x), R(y) -> 2] with the read of [x] at the later
    identifier (id 30) and the read of [y] at the earlier one (id 20). *)
Definition twoReports : CFG :=
  mkCFG (fun n => match n with
                  | 1%positive => mkNode [D x; D y; R x 30; R y 20] [2%positive]
                  | _ => emptyNode
                  end) flow12.

(** An occurrence with no bound syntax node, and one bound to node [20]. *)
Definition unbound : OccPtr := mkPtr 1%positive 0 (mkOcc x Access None).
Definition bound : OccPtr := mkPtr 1%positive 1 (R x 20).

End Examples.

(** * Properties *)

(** ** The transfer of one block *)

Lemma visitOccurrence_unassigned p info :
  unassignedVariables (visitOccurrence p info)
  = unassignedEffect (unassignedVariables info) (pointee p).
Proof.
  unfold visitOccurrence, unassignedEffect.
  destruct (kind (pointee p)); try reflexivity.
  case_bool_decide; [destruct (decl_dataStoredInStorage _)|]; reflexivity.
Qed.

Lemma visitOccurrence_accesses p info q :
  q ∈ uninitializedVariableAccesses (visitOccurrence p info) <->
  q ∈ uninitializedVariableAccesses info \/
  (q = p /\ kind (pointee p) = Access /\
   decl_dataStoredInStorage (declaration (pointee p)) = true /\
   declaration (pointee p) ∈ unassignedVariables info).
Proof.
  unfold visitOccurrence.
  destruct (kind (pointee p)) eqn:Hk; simpl;
    try (split; [auto|intros [?|(?&?&?)]; [done|congruence]]).
  case_bool_decide as Hin; [destruct (decl_dataStoredInStorage _) eqn:Hs|]; simpl.
  - rewrite elem_of_union, elem_of_singleton. intuition auto.
  - intuition congruence.
  - intuition auto.
Qed.

Lemma visitOccurrences_unassigned n i occs info :
  unassignedVariables (visitOccurrences n i occs info)
  = fold_left unassignedEffect occs (unassignedVariables info).
Proof.
  revert i info. induction occs as [|o rest IH]; intros i info; simpl.
  - reflexivity.
  - rewrite IH, visitOccurrence_unassigned. reflexivity.
Qed.

Lemma visitOccurrences_fold_from n occs info i :
  visitOccurrences n i occs info
  = fold_left (fun nodeInfo p => visitOccurrence p nodeInfo)
      (imap (fun j => mkPtr n (i + j)%nat) occs) info.
Proof.
  revert info i. induction occs as [|o rest IH]; intros info i; simpl.
  - reflexivity.
  - rewrite Nat.add_0_r, IH. f_equal.
    apply imap_ext. intros j ? _. simpl. f_equal. lia.
Qed.

Lemma visitOccurrences_fold cfg n info :
  visitOccurrences n 0 (variableOccurrences (node cfg n)) info
  = fold_left (fun nodeInfo p => visitOccurrence p nodeInfo)
      (occurrencePointers cfg n) info.
Proof. apply visitOccurrences_fold_from. Qed.

(** A pointer held after a block was held before, or denotes an access of
    the block that found its declaration unassigned and storage-located. *)
Lemma visitOccurrences_accesses n i occs info q :
  q ∈ uninitializedVariableAccesses (visitOccurrences n i occs info) ->
  q ∈ uninitializedVariableAccesses info \/
  exists j o,
    occs !! j = Some o /\ q = mkPtr n (i + j)%nat o /\ kind o = Access /\
    decl_dataStoredInStorage (declaration o) = true /\
    declaration o ∈ unassignedBefore occs j (unassignedVariables info).
Proof.
  revert i info. induction occs as [|o rest IH]; intros i info; simpl.
  - auto.
  - intros Hq. apply IH in Hq as [Hq|(j & o' & Hj & -> & Hk & Hs & Hu)].
    + apply visitOccurrence_accesses in Hq as [Hq|(-> & Hk & Hs & Hu)]; [auto|].
      right. exists 0%nat, o. simpl in *. rewrite Nat.add_0_r. auto.
    + right. exists (S j), o'. rewrite visitOccurrence_unassigned in Hu.
      simpl in *. repeat split; auto. f_equal. lia.
Qed.

Lemma visitOccurrences_accesses_mono n i occs info :
  uninitializedVariableAccesses info
  ⊆ uninitializedVariableAccesses (visitOccurrences n i occs info).
Proof.
  revert i info. induction occs as [|o rest IH]; intros i info; simpl.
  - done.
  - etrans; [|apply IH]. intros q Hq. apply visitOccurrence_accesses. auto.
Qed.

(** ** One round of the worklist loop *)

Lemma infoAt_insert infos n info m :
  infoAt (<[n := info]> infos) m
  = if decide (n = m) then info else infoAt infos m.
Proof. unfold infoAt. rewrite lookup_insert. by case_decide. Qed.

Lemma propagateFrom_unassigned this other :
  unassignedVariables (propagateFrom this other).1
  = unassignedVariables this ∪ unassignedVariables other.
Proof. reflexivity. Qed.

Lemma propagateFrom_accesses this other :
  uninitializedVariableAccesses (propagateFrom this other).1
  = uninitializedVariableAccesses this ∪ uninitializedVariableAccesses other.
Proof. reflexivity. Qed.

(** Propagating a [NodeInfo] into itself, as a block that is its own exit
    does, changes nothing. *)
Lemma propagateFrom_self this : (propagateFrom this this).1 = this.
Proof.
  destruct this as [U X]. unfold propagateFrom. simpl.
  by rewrite !union_idemp_L.
Qed.

Lemma propagateToExit_infos cur s e :
  nodeInfos (propagateToExit cur s e)
  = <[e := (propagateFrom (infoAt (nodeInfos s) e)
                          (infoAt (nodeInfos s) cur)).1]> (nodeInfos s).
Proof.
  unfold propagateToExit.
  destruct (propagateFrom _ _) as [i g] eqn:E. reflexivity.
Qed.

Lemma propagateToExit_stack cur s e :
  nodesToTraverse (propagateToExit cur s e) = nodesToTraverse s \/
  nodesToTraverse (propagateToExit cur s e) = e :: nodesToTraverse s.
Proof.
  unfold propagateToExit.
  destruct (propagateFrom _ _) as [i [|]]; simpl; auto.
Qed.

Lemma propagateToExit_current cur s e :
  infoAt (nodeInfos (propagateToExit cur s e)) cur = infoAt (nodeInfos s) cur.
Proof.
  rewrite propagateToExit_infos, infoAt_insert.
  case_decide as He; [subst e; apply propagateFrom_self | reflexivity].
Qed.

Lemma exitsLoop_current cur l s :
  infoAt (nodeInfos (fold_left (propagateToExit cur) l s)) cur
  = infoAt (nodeInfos s) cur.
Proof.
  revert s. induction l as [|e l IH]; intros s; simpl; [done|].
  by rewrite IH, propagateToExit_current.
Qed.

Lemma propagateToExit_grows cur s e n :
  unassignedVariables (infoAt (nodeInfos s) n)
    ⊆ unassignedVariables (infoAt (nodeInfos (propagateToExit cur s e)) n) /\
  uninitializedVariableAccesses (infoAt (nodeInfos s) n)
    ⊆ uninitializedVariableAccesses
        (infoAt (nodeInfos (propagateToExit cur s e)) n).
Proof.
  rewrite propagateToExit_infos, infoAt_insert.
  case_decide as He; [subst n|done].
  rewrite propagateFrom_unassigned, propagateFrom_accesses.
  split; apply union_subseteq_l.
Qed.

Lemma exitsLoop_grows cur l s n :
  unassignedVariables (infoAt (nodeInfos s) n)
    ⊆ unassignedVariables
        (infoAt (nodeInfos (fold_left (propagateToExit cur) l s)) n) /\
  uninitializedVariableAccesses (infoAt (nodeInfos s) n)
    ⊆ uninitializedVariableAccesses
        (infoAt (nodeInfos (fold_left (propagateToExit cur) l s)) n).
Proof.
  revert s. induction l as [|e l IH]; intros s; simpl; [done|].
  destruct (IH (propagateToExit cur s e)) as [IU IX].
  destruct (propagateToExit_grows cur s e n) as [HU HX].
  split; etrans; eauto.
Qed.

(** After a round for [currentNode], the map holds for it the result of the
    block's occurrences applied to what it held before. *)
Lemma iteration_current cfg s currentNode rest :
  nodesToTraverse s = currentNode :: rest ->
  infoAt (nodeInfos (iteration cfg s)) currentNode
  = visitOccurrences currentNode 0
      (variableOccurrences (node cfg currentNode))
      (infoAt (nodeInfos s) currentNode).
Proof.
  intros Hs. unfold iteration. rewrite Hs.
  rewrite exitsLoop_current. simpl.
  rewrite infoAt_insert. by case_decide.
Qed.

Lemma iteration_accesses_grow cfg s n :
  uninitializedVariableAccesses (infoAt (nodeInfos s) n)
    ⊆ uninitializedVariableAccesses (infoAt (nodeInfos (iteration cfg s)) n).
Proof.
  unfold iteration. destruct (nodesToTraverse s) as [|cur rest]; [done|].
  etrans; [|apply exitsLoop_grows]. simpl.
  rewrite infoAt_insert. case_decide as He; [subst n|done].
  apply visitOccurrences_accesses_mono.
Qed.

Lemma iteration_unassigned_grow cfg s n :
  head (nodesToTraverse s) <> Some n ->
  unassignedVariables (infoAt (nodeInfos s) n)
    ⊆ unassignedVariables (infoAt (nodeInfos (iteration cfg s)) n).
Proof.
  unfold iteration. destruct (nodesToTraverse s) as [|cur rest]; [done|].
  simpl. intros Hn.
  etrans; [|apply exitsLoop_grows]. simpl.
  rewrite infoAt_insert. case_decide as He; [congruence|done].
Qed.

(** ** The invariant of the worklist loop *)

Lemma loopInvariant_initial cfg _entry :
  loopInvariant cfg _entry (initialState _entry).
Proof.
  split; simpl.
  - repeat constructor.
  - intros n p. unfold infoAt. rewrite lookup_empty. simpl.
    intros Hp. by apply not_elem_of_empty in Hp.
Qed.

Lemma propagateToExit_invariant cfg _entry cur s e :
  loopInvariant cfg _entry s ->
  reaches cfg _entry cur -> edge cfg cur e ->
  loopInvariant cfg _entry (propagateToExit cur s e).
Proof.
  intros [Hstack Hheld] Hcur He. split.
  - destruct (propagateToExit_stack cur s e) as [-> | ->]; [done|].
    constructor; [|done]. eapply rtc_r; eauto.
  - intros n p. rewrite propagateToExit_infos, infoAt_insert.
    case_decide as Hn; [subst n|by apply Hheld].
    rewrite propagateFrom_accesses, elem_of_union.
    intros [Hp|Hp]; [by apply Hheld|].
    destruct (Hheld _ _ Hp) as (Hf & Hfrom & Hto).
    split; [done|split; [done|]]. eapply rtc_r; eauto.
Qed.

Lemma exitsLoop_invariant cfg _entry cur l s :
  loopInvariant cfg _entry s ->
  reaches cfg _entry cur -> Forall (edge cfg cur) l ->
  loopInvariant cfg _entry (fold_left (propagateToExit cur) l s).
Proof.
  intros Hs Hcur Hl. revert s Hs.
  induction Hl as [|e l He Hl IH]; intros s Hs; simpl; [done|].
  apply IH. by apply propagateToExit_invariant.
Qed.

Lemma iteration_invariant cfg _entry s :
  loopInvariant cfg _entry s -> loopInvariant cfg _entry (iteration cfg s).
Proof.
  intros [Hstack Hheld]. unfold iteration.
  destruct (nodesToTraverse s) as [|cur rest] eqn:Es; [by split; [rewrite Es|]|].
  apply Forall_cons in Hstack as [Hcur Hrest].
  apply exitsLoop_invariant; [|done|by apply Forall_forall].
  split; simpl; [done|].
  intros n p. rewrite infoAt_insert.
  case_decide as Hn; [subst n|by apply Hheld].
  intros Hp. apply visitOccurrences_accesses in Hp
    as [Hp|(j & o & Hj & -> & Hk & Hst & Hu)]; [by apply Hheld|].
  split; [|split; [done|apply rtc_refl]].
  unfold flaggable, validPtr. simpl. eauto 6.
Qed.

Lemma traverse_invariant cfg _entry fuel s s' :
  traverse fuel cfg s = Some s' ->
  loopInvariant cfg _entry s ->
  loopInvariant cfg _entry s' /\ nodesToTraverse s' = [].
Proof.
  revert s. induction fuel as [|fuel IH]; intros s; simpl;
    destruct (nodesToTraverse s) eqn:Es; try done.
  - intros [= <-] Hs. auto.
  - intros [= <-] Hs. auto.
  - intros Ht Hs. apply (IH _ Ht). by apply iteration_invariant.
Qed.

(** What the loop ends with, when it ends. *)
Lemma traverse_result cfg _entry fuel s :
  traverse fuel cfg (initialState _entry) = Some s ->
  loopInvariant cfg _entry s /\ nodesToTraverse s = [].
Proof.
  intros Ht. eapply traverse_invariant; [done|apply loopInvariant_initial].
Qed.

(** More fuel does not change a result. *)
Lemma traverse_more_fuel cfg fuel fuel' s s' :
  traverse fuel cfg s = Some s' -> (fuel <= fuel')%nat ->
  traverse fuel' cfg s = Some s'.
Proof.
  revert fuel' s. induction fuel as [|fuel IH]; intros fuel' s; simpl.
  - destruct (nodesToTraverse s) eqn:Es; [|done].
    intros [= <-] _. destruct fuel'; simpl; by rewrite Es.
  - destruct (nodesToTraverse s) eqn:Es.
    + intros [= <-] _. destruct fuel'; simpl; by rewrite Es.
    + intros Ht Hle. destruct fuel' as [|fuel']; [lia|]. simpl. rewrite Es.
      apply IH; [done|lia].
Qed.

(** ** The comparator and the emission loop *)

Section EmitterProperties.

Variable kindOrdinal : Kind -> Z.

Abbreviation less := (occurrenceLess kindOrdinal).
Abbreviation key := (sortKey kindOrdinal).

(** The comparator is the strict lexicographic order of the sort keys. *)
Lemma occurrenceLess_key a b :
  less a b = true <-> keyLt (key a) (key b).
Proof.
  unfold occurrenceLess, keyLt, sortKey. simpl.
  destruct (occurrence (pointee a)) as [na|], (occurrence (pointee b)) as [nb|];
    repeat match goal with
           | |- context [(?u <? ?v)%N] => destruct (N.ltb_spec u v)
           | |- context [(?u <? ?v)%Z] => destruct (Z.ltb_spec u v)
           end;
    (split; [intros ?; try discriminate; lia | intros ?; try reflexivity; lia]).
Qed.

Lemma keyLe_not_keyLt u v : keyLe u v <-> ~ keyLt v u.
Proof.
  destruct u as [[? ?] ?], v as [[? ?] ?]. unfold keyLe, keyLt. simpl. lia.
Qed.

Lemma notAfter_key a b : notAfter less a b <-> keyLe (key a) (key b).
Proof.
  unfold notAfter.
  rewrite <- not_true_iff_false, occurrenceLess_key, keyLe_not_keyLt. done.
Qed.

#[local] Instance keyLe_trans : Transitive keyLe.
Proof. intros [[? ?] ?] [[? ?] ?] [[? ?] ?]. unfold keyLe. simpl. lia. Qed.

#[local] Instance keyLe_total : Total keyLe.
Proof. intros [[? ?] ?] [[? ?] ?]. unfold keyLe. simpl. lia. Qed.

#[local] Instance keyLe_antisymm : AntiSymm (=) keyLe.
Proof.
  intros [[? ?] ?] [[? ?] ?]. unfold keyLe. simpl. intros ? ?.
  repeat f_equal; lia.
Qed.

#[local] Instance notAfter_trans : Transitive (notAfter less).
Proof.
  intros a b c. rewrite !notAfter_key. apply keyLe_trans.
Qed.

#[local] Instance notAfter_total : Total (notAfter less).
Proof. intros a b. rewrite !notAfter_key. apply keyLe_total. Qed.

(** Two sorted arrangements of the same pointers carry the same keys at
    the same positions. *)
Lemma sorted_keys_agree l1 l2 :
  StronglySorted (notAfter less) l1 -> StronglySorted (notAfter less) l2 ->
  l1 ≡ₚ l2 -> key <$> l1 = key <$> l2.
Proof.
  intros H1 H2 Hp.
  apply (StronglySorted_unique keyLe).
  - eapply StronglySorted_fmap; [|exact H1]. intros ? ?. by rewrite notAfter_key.
  - eapply StronglySorted_fmap; [|exact H2]. intros ? ?. by rewrite notAfter_key.
  - by rewrite Hp.
Qed.

(** With ids that identify, the diagnostic is a function of the key. *)
Lemma diagnosticOf_key cfg a b :
  idsIdentify cfg -> validPtr cfg a -> validPtr cfg b ->
  key a = key b -> diagnosticOf a = diagnosticOf b.
Proof.
  intros Hids Ha Hb Hk.
  destruct (Hids _ _ _ _ _ _ Ha Hb) as [Hd Hn].
  unfold sortKey in Hk. injection Hk as Ho Hi _.
  unfold diagnosticOf. rewrite (Hd Hi).
  destruct (occurrence (pointee a)) as [na|] eqn:Ea,
           (occurrence (pointee b)) as [nb|] eqn:Eb; try lia; [|done].
  rewrite (Hn na nb eq_refl eq_refl); [done|lia].
Qed.

Lemma diagnostics_of_keys cfg l1 l2 :
  idsIdentify cfg -> Forall (validPtr cfg) l1 -> Forall (validPtr cfg) l2 ->
  key <$> l1 = key <$> l2 -> diagnosticOf <$> l1 = diagnosticOf <$> l2.
Proof.
  intros Hids H1. revert l2.
  induction H1 as [|a l1 Ha H1 IH]; intros [|b l2] H2 Hk; try done.
  apply Forall_cons in H2 as [Hb H2]. csimpl in Hk.
  assert (Hab : key a = key b) by congruence.
  assert (Hk' : key <$> l1 = key <$> l2) by congruence.
  csimpl. f_equal; [eapply diagnosticOf_key; eassumption|apply IH; assumption].
Qed.

(** The emission loop appends the diagnostics of the vector, in its order. *)
Lemma emission_loop l reporter :
  fold_left emit l reporter = reporter ++ (diagnosticOf <$> l).
Proof.
  revert reporter. induction l as [|p l IH]; intros reporter; simpl.
  - by rewrite app_nil_r.
  - rewrite IH. unfold emit, typeError. simpl. by rewrite <- app_assoc.
Qed.

(** The reference library meets the contract. *)
Lemma referenceLibrary_conforming : Conforming referenceLibrary.
Proof.
  split; simpl.
  - done.
  - intros. apply merge_sort_Permutation.
  - intros lt l ? ?. by apply StronglySorted_merge_sort.
Qed.

Lemma reversedLibrary_conforming : Conforming reversedLibrary.
Proof.
  split; simpl.
  - intros. apply reverse_Permutation.
  - intros. apply merge_sort_Permutation.
  - intros lt l ? ?. by apply StronglySorted_merge_sort.
Qed.

Variable lib : StdLibrary.
Hypothesis lib_conforming : Conforming lib.

Lemma ordered_permutation info :
  uninitializedAccessesOrdered kindOrdinal lib info
  ≡ₚ elements (uninitializedVariableAccesses info).
Proof.
  unfold uninitializedAccessesOrdered.
  rewrite (std_sort_permutation _ lib_conforming).
  apply (set_range_elements _ lib_conforming).
Qed.

Lemma ordered_sorted info :
  StronglySorted (notAfter less)
    (uninitializedAccessesOrdered kindOrdinal lib info).
Proof. apply (std_sort_sorted _ lib_conforming); apply _. Qed.

Lemma elem_of_ordered info p :
  p ∈ uninitializedAccessesOrdered kindOrdinal lib info
  <-> p ∈ uninitializedVariableAccesses info.
Proof. by rewrite ordered_permutation, elem_of_elements. Qed.

(** What a call that returns has done: the loop ended in a state [s], and
    the diagnostics of the ordered vector for the exit were appended. *)
Lemma checkUninitializedAccess_returns fuel cfg _entry _exit reporter reporter' :
  checkUninitializedAccess kindOrdinal lib fuel cfg _entry _exit reporter
    = Some reporter' ->
  exists s,
    traverse fuel cfg (initialState _entry) = Some s /\
    reporter' = reporter ++
      (diagnosticOf <$>
         uninitializedAccessesOrdered kindOrdinal lib (infoAt (nodeInfos s) _exit)).
Proof.
  unfold checkUninitializedAccess.
  destruct (traverse fuel cfg (initialState _entry)) as [s|]; [|done].
  intros H. exists s. split; [done|].
  case_bool_decide as He; injection H as <-.
  - assert (uninitializedAccessesOrdered kindOrdinal lib
              (infoAt (nodeInfos s) _exit) = []) as ->.
    { apply Permutation_nil_r. rewrite ordered_permutation, He.
      by rewrite elements_empty. }
    by rewrite app_nil_r.
  - apply emission_loop.
Qed.

Lemma checkUninitializedAccess_runs fuel cfg _entry _exit reporter s :
  traverse fuel cfg (initialState _entry) = Some s ->
  checkUninitializedAccess kindOrdinal lib fuel cfg _entry _exit reporter
  = Some (reporter ++
      (diagnosticOf <$>
         uninitializedAccessesOrdered kindOrdinal lib (infoAt (nodeInfos s) _exit))).
Proof.
  intros Ht.
  destruct (checkUninitializedAccess kindOrdinal lib fuel cfg _entry _exit
              reporter) as [r'|] eqn:E.
  - apply checkUninitializedAccess_returns in E as (s' & Ht' & ->).
    rewrite Ht in Ht'. by injection Ht' as <-.
  - unfold checkUninitializedAccess in E. rewrite Ht in E.
    by case_bool_decide.
Qed.

End EmitterProperties.

(** ** Assignments in front of an access *)

Lemma unassignedEffect_keeps_out d l U :
  d ∉ U ->
  (forall b, b ∈ l -> kind b = Declaration -> declaration b <> d) ->
  d ∉ fold_left unassignedEffect l U.
Proof.
  revert U. induction l as [|b l IH]; intros U HU Hl; simpl; [done|].
  apply IH.
  - unfold unassignedEffect. destruct (kind b) eqn:Hk.
    + set_solver.
    + set_solver.
    + done.
    + assert (declaration b <> d) by (apply Hl; [left|done]). set_solver.
  - intros b' Hb'. apply Hl. by right.
Qed.

(** Behind an assignment or an inline-assembly reference of [d], and up to
    the next declaration of [d], [d] is not unassigned, whatever the block
    was entered with. *)
Lemma assigned_before occs j i a d U :
  occs !! j = Some a -> (j < i)%nat ->
  kind a = Assignment \/ kind a = InlineAssembly ->
  declaration a = d ->
  (forall k b, (j < k < i)%nat -> occs !! k = Some b ->
               kind b = Declaration -> declaration b <> d) ->
  d ∉ unassignedBefore occs i U.
Proof.
  intros Hj Hji Hk Hd Hmid. unfold unassignedBefore.
  replace i with (j + S (i - S j))%nat by lia.
  rewrite <- take_take_drop, (drop_S _ _ _ Hj). simpl.
  rewrite fold_left_app. simpl.
  apply unassignedEffect_keeps_out.
  - unfold unassignedEffect. destruct Hk as [-> | ->]; set_solver.
  - intros b Hb. apply list_elem_of_lookup in Hb as [k Hb].
    apply lookup_take_Some in Hb as [Hb Hlt].
    rewrite lookup_drop in Hb. apply (Hmid (S j + k)%nat); [lia|done].
Qed.

(** ** The end-to-end scenarios of the specification *)

Section Scenarios.

Let run (fuel : nat) (cfg : CFG) : option ErrorReporter :=
  checkUninitializedAccess Examples.ordinal referenceLibrary fuel cfg
    1%positive 2%positive [].

Example scenario_straight_line :
  run 2 Examples.straight
  = Some [diagnosticOf (mkPtr 1%positive 1 (Examples.R Examples.x 20))].
Proof. vm_compute. reflexivity. Qed.

Example scenario_initialized_before_read :
  run 2 Examples.initialized = Some [].
Proof. vm_compute. reflexivity. Qed.

Example scenario_reverting_arm :
  run 4 Examples.revertingArm
  = Some [diagnosticOf (mkPtr 4%positive 0 (Examples.R Examples.x 20))].
Proof. vm_compute. reflexivity. Qed.

Example scenario_access_in_reverting_arm :
  run 4 Examples.accessInRevertingArm = Some [].
Proof. vm_compute. reflexivity. Qed.

Example scenario_late_assignment :
  run 6 Examples.lateAssignment
  = Some [diagnosticOf (mkPtr 3%positive 0 (Examples.R Examples.x 20))].
Proof. vm_compute. reflexivity. Qed.

Example scenario_two_variables :
  run 2 Examples.twoVariables
  = Some [diagnosticOf (mkPtr 1%positive 3 (Examples.R Examples.x 21))].
Proof. vm_compute. reflexivity. Qed.

Example scenario_not_storage :
  run 2 Examples.notStorage = Some [].
Proof. vm_compute. reflexivity. Qed.

Example scenario_ordering :
  run 2 Examples.twoReports
  = Some [diagnosticOf (mkPtr 1%positive 3 (Examples.R Examples.y 20));
          diagnosticOf (mkPtr 1%positive 2 (Examples.R Examples.x 30))]
  /\ checkUninitializedAccess Examples.ordinal reversedLibrary 2
       Examples.twoReports 1%positive 2%positive []
     = run 2 Examples.twoReports.
Proof. vm_compute. split; reflexivity. Qed.

End Scenarios.

(** * The claims *)

(** C1, counterexample.  An access with no bound syntax node against one
    bound to node 20: the unbound one is less, so it is emitted first. *)
Lemma unbound_before_bound_example :
  occurrenceLess Examples.ordinal Examples.unbound Examples.bound = true /\
  occurrenceLess Examples.ordinal Examples.bound Examples.unbound <> true.
Proof. split; [reflexivity|discriminate]. Qed.

(** C1, as amended.  Against an occurrence [b] that has a bound syntax
    node, an occurrence lacking one is less and [b] is not less than it, so
    the one lacking a bound syntax node orders before the one having one;
    an occurrence that has a bound syntax node as well is less than [b]
    exactly when its syntax-node id is smaller, or the ids are equal and its
    declaration id is smaller, or those are equal too and the ordinal of its
    kind is smaller. *)
Theorem occurrenceLess_order kindOrdinal (a b : OccPtr) (nb : ASTNode) :
  occurrence (pointee b) = Some nb ->
  match occurrence (pointee a) with
  | None =>
      occurrenceLess kindOrdinal a b = true /\
      occurrenceLess kindOrdinal b a = false
  | Some na =>
      occurrenceLess kindOrdinal a b = true <->
      node_id na < node_id nb \/
      (node_id na = node_id nb /\
       (decl_id (declaration (pointee a)) < decl_id (declaration (pointee b)) \/
        (decl_id (declaration (pointee a)) = decl_id (declaration (pointee b)) /\
         (kindOrdinal (kind (pointee a)) < kindOrdinal (kind (pointee b)))%Z)))
  end.
Proof.
  intros Hb. unfold occurrenceLess. rewrite Hb.
  destruct (occurrence (pointee a)) as [na|]; [|done].
  repeat match goal with
         | |- context [(?u <? ?v)%N] => destruct (N.ltb_spec u v)
         | |- context [(?u <? ?v)%Z] => destruct (Z.ltb_spec u v)
         end;
    (split; [intros ?; try discriminate; lia | intros ?; try reflexivity; lia]).
Qed.

Lemma occurrenceLess_order_witness :
  occurrence (pointee Examples.bound)
    = Some (mkASTNode 20 (Examples.at_ 20)) /\
  (occurrenceLess Examples.ordinal Examples.unbound Examples.bound = true /\
   occurrenceLess Examples.ordinal Examples.bound Examples.unbound = false).
Proof.
  split; [reflexivity|].
  exact (occurrenceLess_order Examples.ordinal Examples.unbound Examples.bound
           (mkASTNode 20 (Examples.at_ 20)) eq_refl).
Defined.

(** C4, counterexample.  One round for block 1 of [1: D(x), R(x) -> 2],
    which is not among its own exits: the map held no pending access for
    block 1 before the round and holds the access [R(x)] for it after the
    round.  The access was inserted into the stored [NodeInfo], not into a
    copy of it. *)
Lemma transfer_stores_pending_access_example :
  (1%positive ∉ exits (node Examples.straight 1%positive)) /\
  uninitializedVariableAccesses
    (infoAt (nodeInfos (initialState 1%positive)) 1%positive) = ∅ /\
  (mkPtr 1%positive 1 (Examples.R Examples.x 20)
     ∈ uninitializedVariableAccesses
         (infoAt (nodeInfos (iteration Examples.straight
                               (initialState 1%positive))) 1%positive)).
Proof.
  split; [|split].
  - simpl. set_solver.
  - reflexivity.
  - vm_compute. set_solver.
Qed.

(** C4, as amended.  A round for [currentNode] applies the block's
    occurrences in the order of its vector, starting from the contents of
    the [NodeInfo] held for [currentNode], and the accesses it inserts are
    inserted into the pending accesses of that stored [NodeInfo]: after
    the round it holds the accesses observed through this block as well.
    Each occurrence has this effect: a declaration inserts its declaration
    into the unassigned set; an assignment or an inline-assembly reference
    removes it; an access leaves the unassigned set as it is and inserts
    the occurrence into the pending accesses exactly when its declaration
    is in the unassigned set and is storage-located. *)
Theorem transfer_effects cfg s (currentNode : NodePtr) rest :
  nodesToTraverse s = currentNode :: rest ->
  uninitializedVariableAccesses
    (infoAt (nodeInfos (iteration cfg s)) currentNode)
  = uninitializedVariableAccesses
      (fold_left (fun nodeInfo p => visitOccurrence p nodeInfo)
         (occurrencePointers cfg currentNode)
         (infoAt (nodeInfos s) currentNode))
  /\
  forall p nodeInfo,
    let d := declaration (pointee p) in
    let U := unassignedVariables nodeInfo in
    let X := uninitializedVariableAccesses nodeInfo in
    let U' := unassignedVariables (visitOccurrence p nodeInfo) in
    let X' := uninitializedVariableAccesses (visitOccurrence p nodeInfo) in
    match kind (pointee p) with
    | Declaration => U' = {[d]} ∪ U /\ X' = X
    | Assignment | InlineAssembly => U' = U ∖ {[d]} /\ X' = X
    | Access =>
        U' = U /\
        X' = if bool_decide (d ∈ U) && decl_dataStoredInStorage d
             then {[p]} ∪ X else X
    end.
Proof.
  intros Hs. split.
  - rewrite (iteration_current _ _ _ _ Hs). by rewrite visitOccurrences_fold.
  - intros p nodeInfo. unfold visitOccurrence.
    destruct (kind (pointee p)); simpl; try done.
    case_bool_decide; [destruct (decl_dataStoredInStorage _)|]; done.
Qed.

Lemma transfer_effects_witness :
  nodesToTraverse (initialState 1%positive) = [1%positive] /\
  uninitializedVariableAccesses
    (infoAt (nodeInfos (iteration Examples.straight (initialState 1%positive)))
       1%positive)
  = uninitializedVariableAccesses
      (fold_left (fun nodeInfo p => visitOccurrence p nodeInfo)
         (occurrencePointers Examples.straight 1%positive)
         (infoAt (nodeInfos (initialState 1%positive)) 1%positive)).
Proof.
  split; [reflexivity|].
  exact (proj1 (transfer_effects Examples.straight (initialState 1%positive)
                  1%positive [] eq_refl)).
Defined.

(** C6, the failing input.  In [1: D(x) -> 2: A(x) -> 3], entered at 1
    with exit 3, the first round (block 1) leaves [x] in the unassigned
    set stored for block 2; the second round, which processes block 2,
    erases [x] from that stored set through the reference.  The update
    does not preserve inclusion on the unassigned variables. *)
Theorem unassigned_shrinks_example :
  let s1 := iteration Examples.assignedLater (initialState 1%positive) in
  let s2 := iteration Examples.assignedLater s1 in
  nodesToTraverse s1 = [2%positive] /\
  (Examples.x ∈ unassignedVariables (infoAt (nodeInfos s1) 2%positive)) /\
  (Examples.x ∉ unassignedVariables (infoAt (nodeInfos s2) 2%positive)) /\
  ~ (unassignedVariables (infoAt (nodeInfos s1) 2%positive)
       ⊆ unassignedVariables (infoAt (nodeInfos s2) 2%positive)).
Proof.
  intros s1 s2.
  assert (Examples.x ∈ unassignedVariables (infoAt (nodeInfos s1) 2%positive))
    as Hx by (vm_compute; set_solver).
  assert (Examples.x ∉ unassignedVariables (infoAt (nodeInfos s2) 2%positive))
    as Hn by (vm_compute; set_solver).
  split; [by vm_compute|split; [exact Hx|split; [exact Hn|]]].
  intros Hsub. apply Hn, Hsub, Hx.
Qed.

(** Where inclusion is kept.  Every update of a [NodeInfo] preserves
    inclusion on the pending accesses: one occurrence, one propagation, one
    whole round.  A propagation preserves inclusion on the unassigned
    variables as well, and so does a round for every node other than the
    one it processes. *)
Lemma nodeInfo_growth cfg s (n : NodePtr) :
  (forall p nodeInfo,
     uninitializedVariableAccesses nodeInfo
       ⊆ uninitializedVariableAccesses (visitOccurrence p nodeInfo)) /\
  (forall cur e,
     unassignedVariables (infoAt (nodeInfos s) n)
       ⊆ unassignedVariables (infoAt (nodeInfos (propagateToExit cur s e)) n) /\
     uninitializedVariableAccesses (infoAt (nodeInfos s) n)
       ⊆ uninitializedVariableAccesses
           (infoAt (nodeInfos (propagateToExit cur s e)) n)) /\
  uninitializedVariableAccesses (infoAt (nodeInfos s) n)
    ⊆ uninitializedVariableAccesses (infoAt (nodeInfos (iteration cfg s)) n) /\
  (head (nodesToTraverse s) <> Some n ->
   unassignedVariables (infoAt (nodeInfos s) n)
     ⊆ unassignedVariables (infoAt (nodeInfos (iteration cfg s)) n)).
Proof.
  split; [|split; [|split]].
  - intros p nodeInfo q Hq. apply visitOccurrence_accesses. by left.
  - intros cur e. by apply propagateToExit_grows.
  - apply iteration_accesses_grow.
  - apply iteration_unassigned_grow.
Qed.

(** ** What a call appends to the reporter *)

Lemma checkUninitializedAccess_appends kindOrdinal lib fuel cfg _entry _exit
    reporter reporter' :
  checkUninitializedAccess kindOrdinal lib fuel cfg _entry _exit reporter
    = Some reporter' ->
  exists l, reporter' = reporter ++ (diagnosticOf <$> l).
Proof.
  unfold checkUninitializedAccess.
  destruct (traverse fuel cfg (initialState _entry)) as [s|]; [|done].
  case_bool_decide; intros [= <-].
  - exists []. by rewrite app_nil_r.
  - eexists. apply emission_loop.
Qed.

Lemma diagnostics_are_type_errors (l : list OccPtr) :
  Forall (fun e => err_type e = TypeError) (diagnosticOf <$> l).
Proof. apply Forall_fmap, Forall_forall. done. Qed.

Lemma accept_appends kindOrdinal lib fuel cfg _astRoot reporter reporter' :
  accept kindOrdinal lib fuel cfg _astRoot reporter = Some reporter' ->
  exists emitted,
    reporter' = reporter ++ emitted /\
    Forall (fun e => err_type e = TypeError) emitted.
Proof.
  revert reporter. induction _astRoot as [|f rest IH]; intros reporter; simpl.
  - intros [= <-]. exists []. by rewrite app_nil_r.
  - destruct (visit kindOrdinal lib fuel cfg f reporter) as [r1|] eqn:Ev; [|done].
    intros Hrest. apply IH in Hrest as (e2 & -> & H2).
    unfold visit in Ev. destruct (isImplemented f).
    + apply checkUninitializedAccess_appends in Ev as (l & ->).
      exists ((diagnosticOf <$> l) ++ e2). rewrite app_assoc. split; [done|].
      apply Forall_app. split; [apply diagnostics_are_type_errors|done].
    + injection Ev as <-. eauto.
Qed.

Lemma containsOnlyWarnings_app r1 r2 :
  containsOnlyWarnings (r1 ++ r2)
  = containsOnlyWarnings r1 && containsOnlyWarnings r2.
Proof. apply forallb_app. Qed.

Lemma containsOnlyWarnings_type_errors emitted :
  Forall (fun e => err_type e = TypeError) emitted ->
  containsOnlyWarnings emitted = true <-> emitted = [].
Proof.
  intros H. destruct H as [|e l He Hl]; simpl; [done|].
  rewrite He. simpl. split; discriminate.
Qed.

(** C5, counterexample.  A reporter that already holds an error, and a
    tree without function definitions: the analysis emits nothing (the
    reporter is as it was), and [analyze] returns [false]. *)
Lemma analyze_false_without_emission_example :
  let earlier :=
    mkError OtherError (Examples.at_ 1) [] "Expected ';'." in
  analyze Examples.ordinal referenceLibrary 0 Examples.straight [] [earlier]
  = Some ([earlier], false).
Proof. reflexivity. Qed.

(** C5, as amended.  [analyze] returns [true] exactly when the reporter's
    list holds no error-level entry after the analysis: none emitted during
    the analysis (all it emits are type errors) and none recorded before
    it.  Warnings do not cause a [false] return. *)
Theorem analyze_flag kindOrdinal lib fuel cfg _astRoot reporter reporter' b :
  analyze kindOrdinal lib fuel cfg _astRoot reporter = Some (reporter', b) ->
  exists emitted,
    reporter' = reporter ++ emitted /\
    Forall (fun e => err_type e = TypeError) emitted /\
    (b = true <-> containsOnlyWarnings reporter = true /\ emitted = []).
Proof.
  unfold analyze.
  destruct (accept kindOrdinal lib fuel cfg _astRoot reporter) as [r'|] eqn:Ea;
    [|done].
  intros [= <- <-]. apply accept_appends in Ea as (emitted & -> & Hty).
  exists emitted. split; [done|split; [done|]].
  rewrite containsOnlyWarnings_app, andb_true_iff.
  by rewrite (containsOnlyWarnings_type_errors _ Hty).
Qed.

Lemma analyze_flag_witness :
  let warning := mkError Warning (Examples.at_ 1) [] "Unused variable." in
  analyze Examples.ordinal referenceLibrary 2 Examples.straight
    [mkFun 1 true] [warning]
  = Some ([warning; diagnosticOf (mkPtr 1%positive 1 (Examples.R Examples.x 20))],
          false) /\
  exists emitted,
    [warning; diagnosticOf (mkPtr 1%positive 1 (Examples.R Examples.x 20))]
    = [warning] ++ emitted /\
    Forall (fun e => err_type e = TypeError) emitted /\
    (false = true <-> containsOnlyWarnings [warning] = true /\ emitted = []).
Proof.
  intros warning.
  assert (analyze Examples.ordinal referenceLibrary 2 Examples.straight
            [mkFun 1 true] [warning]
          = Some ([warning;
                   diagnosticOf (mkPtr 1%positive 1 (Examples.R Examples.x 20))],
                  false)) as H by (vm_compute; reflexivity).
  split; [exact H|].
  exact (analyze_flag _ _ _ _ _ _ _ _ H).
Defined.

Lemma filter_at_most_one {A} (P : A -> Prop) `{forall a, Decision (P a)}
    (l : list A) :
  NoDup l ->
  (forall a b, a ∈ l -> b ∈ l -> P a -> P b -> a = b) ->
  (length (filter P l) <= 1)%nat.
Proof.
  induction 1 as [|a l Ha Hl IH]; intros Heq; [simpl; lia|].
  rewrite filter_cons. case_decide as HPa.
  - assert (filter P l = []) as ->; [|simpl; lia].
    destruct (filter P l) as [|b l'] eqn:E; [done|].
    assert (b ∈ filter P l) as Hb by (rewrite E; left).
    apply list_elem_of_filter in Hb as [HPb Hb].
    destruct Ha. rewrite (Heq a b); [done|left|by right|done|done].
  - apply IH. intros b c Hb Hc. apply Heq; by right.
Qed.

(** C9.  For a call that returns, with the loop ended in state [s]: the
    emission loop runs over the vector made of the pending accesses held
    for the exit, and appends one diagnostic for each of its positions.
    The vector has as many positions as the set has elements and no
    pointer twice, its pointers denote access occurrences of the graph,
    and for each slot of the graph (block [n], position [i]) at most one
    position of the vector is a pointer to it: an access occurrence gives
    rise to at most one diagnostic, however often the loop came by it. *)
Theorem one_diagnostic_per_access kindOrdinal lib fuel cfg _entry _exit
    reporter reporter' :
  Conforming lib ->
  checkUninitializedAccess kindOrdinal lib fuel cfg _entry _exit reporter
    = Some reporter' ->
  exists s,
    traverse fuel cfg (initialState _entry) = Some s /\
    let pending := uninitializedVariableAccesses (infoAt (nodeInfos s) _exit) in
    let reported :=
      uninitializedAccessesOrdered kindOrdinal lib (infoAt (nodeInfos s) _exit) in
    reporter' = reporter ++ (diagnosticOf <$> reported) /\
    length reported = size pending /\
    NoDup reported /\
    (forall p, p ∈ reported ->
               validPtr cfg p /\ kind (pointee p) = Access) /\
    (forall (n : NodePtr) (i : nat),
       (length (filter (fun p => ptr_node p = n /\ ptr_index p = i) reported)
        <= 1)%nat).
Proof.
  intros Hlib H.
  apply (checkUninitializedAccess_returns _ _ Hlib) in H as (s & Ht & ->).
  destruct (traverse_result _ _ _ _ Ht) as [[_ Hheld] _].
  exists s. split; [done|]. simpl.
  set (reported := uninitializedAccessesOrdered kindOrdinal lib
                     (infoAt (nodeInfos s) _exit)).
  assert (NoDup reported) as Hnd.
  { subst reported. rewrite (ordered_permutation _ _ Hlib).
    apply NoDup_elements. }
  assert (forall p, p ∈ reported ->
            validPtr cfg p /\ kind (pointee p) = Access) as Hvalid.
  { intros p Hp. apply (elem_of_ordered _ _ Hlib) in Hp.
    destruct (Hheld _ _ Hp) as ((Hv & Hk & _) & _). auto. }
  split; [done|split; [|split; [done|split; [done|]]]].
  - subst reported. by rewrite (ordered_permutation _ _ Hlib).
  - intros n i. apply filter_at_most_one; [done|].
    intros [na ia oa] [nb ib ob] Ha Hb [Hna Hia] [Hnb Hib]. simpl in *.
    destruct (Hvalid _ Ha) as [Hva _], (Hvalid _ Hb) as [Hvb _].
    unfold validPtr in Hva, Hvb. simpl in *. subst. congruence.
Qed.

Lemma one_diagnostic_per_access_witness :
  let d := diagnosticOf (mkPtr 3%positive 0 (Examples.R Examples.x 20)) in
  Conforming referenceLibrary /\
  checkUninitializedAccess Examples.ordinal referenceLibrary 6
    Examples.lateAssignment 1%positive 2%positive [] = Some [d] /\
  exists s,
    traverse 6 Examples.lateAssignment (initialState 1%positive) = Some s /\
    let pending :=
      uninitializedVariableAccesses (infoAt (nodeInfos s) 2%positive) in
    let reported :=
      uninitializedAccessesOrdered Examples.ordinal referenceLibrary
        (infoAt (nodeInfos s) 2%positive) in
    [d] = [] ++ (diagnosticOf <$> reported) /\
    length reported = size pending /\
    NoDup reported /\
    (forall p, p ∈ reported ->
               validPtr Examples.lateAssignment p /\
               kind (pointee p) = Access) /\
    (forall (n : NodePtr) (i : nat),
       (length (filter (fun p => ptr_node p = n /\ ptr_index p = i) reported)
        <= 1)%nat).
Proof.
  intros d.
  assert (checkUninitializedAccess Examples.ordinal referenceLibrary 6
            Examples.lateAssignment 1%positive 2%positive [] = Some [d])
    as H by (vm_compute; reflexivity).
  split; [exact referenceLibrary_conforming|split; [exact H|]].
  exact (one_diagnostic_per_access _ _ _ _ _ _ _ _
           referenceLibrary_conforming H).
Defined.

(** C3.  When the loop has come to its end, in state [s], the call has
    emitted a diagnostic for exactly the pointers held as pending accesses
    for the exit: a pointer is among the reported ones if and only if it
    is in [uninitializedVariableAccesses] of [nodeInfos[_exit]].  Every
    reported pointer denotes an access in a block that can be reached from
    the entry and from which the exit can be reached; an access on no path
    to the exit is not reported. *)
Theorem reported_iff_pending_at_exit kindOrdinal lib fuel cfg _entry _exit
    reporter reporter' :
  Conforming lib ->
  checkUninitializedAccess kindOrdinal lib fuel cfg _entry _exit reporter
    = Some reporter' ->
  exists s reported,
    traverse fuel cfg (initialState _entry) = Some s /\
    nodesToTraverse s = [] /\
    reporter' = reporter ++ (diagnosticOf <$> reported) /\
    (forall p,
       p ∈ reported <->
       p ∈ uninitializedVariableAccesses (infoAt (nodeInfos s) _exit)) /\
    (forall p,
       p ∈ reported ->
       validPtr cfg p /\ kind (pointee p) = Access /\
       reaches cfg _entry (ptr_node p) /\ reaches cfg (ptr_node p) _exit).
Proof.
  intros Hlib H.
  apply (checkUninitializedAccess_returns _ _ Hlib) in H as (s & Ht & ->).
  destruct (traverse_result _ _ _ _ Ht) as [[_ Hheld] Hstack].
  exists s. eexists. split; [done|split; [done|split; [done|split]]].
  - intros p. by apply elem_of_ordered.
  - intros p Hp. apply (elem_of_ordered _ _ Hlib) in Hp.
    destruct (Hheld _ _ Hp) as ((Hv & Hk & _) & Hfrom & Hto). auto.
Qed.

Lemma reported_iff_pending_at_exit_witness :
  Conforming referenceLibrary /\
  checkUninitializedAccess Examples.ordinal referenceLibrary 2
    Examples.straight 1%positive 2%positive []
  = Some [diagnosticOf (mkPtr 1%positive 1 (Examples.R Examples.x 20))] /\
  exists s reported,
    traverse 2 Examples.straight (initialState 1%positive) = Some s /\
    nodesToTraverse s = [] /\
    [diagnosticOf (mkPtr 1%positive 1 (Examples.R Examples.x 20))]
    = [] ++ (diagnosticOf <$> reported) /\
    (forall p,
       p ∈ reported <->
       p ∈ uninitializedVariableAccesses (infoAt (nodeInfos s) 2%positive)) /\
    (forall p,
       p ∈ reported ->
       validPtr Examples.straight p /\ kind (pointee p) = Access /\
       reaches Examples.straight 1%positive (ptr_node p) /\
       reaches Examples.straight (ptr_node p) 2%positive).
Proof.
  assert (checkUninitializedAccess Examples.ordinal referenceLibrary 2
            Examples.straight 1%positive 2%positive []
          = Some [diagnosticOf (mkPtr 1%positive 1 (Examples.R Examples.x 20))])
    as H by (vm_compute; reflexivity).
  split; [exact referenceLibrary_conforming|split; [exact H|]].
  exact (reported_iff_pending_at_exit _ _ _ _ _ _ _ _
           referenceLibrary_conforming H).
Defined.

(** C8, counterexample.  The block [A(x), D(x), R(x)] in front of the
    exit: the access is preceded in its block by an assignment of the same
    declaration, and the pointer to it is in the vector the emission loop
    runs over: it is reported, the declaration between the two having put
    [x] back into the unassigned set. *)
Lemma access_after_assignment_reported_example :
  variableOccurrences (node Examples.redeclared 1%positive) !! 0%nat
    = Some (Examples.A Examples.x 20) /\
  variableOccurrences (node Examples.redeclared 1%positive) !! 2%nat
    = Some (Examples.R Examples.x 21) /\
  checkUninitializedAccess Examples.ordinal referenceLibrary 2
    Examples.redeclared 1%positive 2%positive []
  = Some [diagnosticOf (mkPtr 1%positive 2 (Examples.R Examples.x 21))] /\
  exists s,
    traverse 2 Examples.redeclared (initialState 1%positive) = Some s /\
    uninitializedAccessesOrdered Examples.ordinal referenceLibrary
      (infoAt (nodeInfos s) 2%positive)
    = [mkPtr 1%positive 2 (Examples.R Examples.x 21)].
Proof.
  split; [reflexivity|split; [reflexivity|split; [vm_compute; reflexivity|]]].
  eexists. split; [reflexivity|]. vm_compute. reflexivity.
Qed.

(** C8, as amended.  Within a block [n], the occurrence at position [i]
    that is preceded in the block's order (at position [j]) by an
    assignment or an inline-assembly reference [a] of the same
    declaration, with no declaration occurrence of that declaration
    between the two, is not reported: when the call returns, no pointer to
    that slot is in the vector the emission loop runs over, nor among the
    pending accesses held for any block. *)
Theorem assigned_access_not_reported kindOrdinal lib fuel cfg _entry _exit
    reporter reporter' (n : NodePtr) (i j : nat) (a o : VariableOccurrence) :
  Conforming lib ->
  checkUninitializedAccess kindOrdinal lib fuel cfg _entry _exit reporter
    = Some reporter' ->
  variableOccurrences (node cfg n) !! i = Some o ->
  variableOccurrences (node cfg n) !! j = Some a ->
  (j < i)%nat ->
  kind a = Assignment \/ kind a = InlineAssembly ->
  declaration a = declaration o ->
  (forall k b,
     (j < k < i)%nat ->
     variableOccurrences (node cfg n) !! k = Some b ->
     kind b = Declaration -> declaration b <> declaration o) ->
  exists s,
    traverse fuel cfg (initialState _entry) = Some s /\
    reporter' = reporter ++
      (diagnosticOf <$>
         uninitializedAccessesOrdered kindOrdinal lib
           (infoAt (nodeInfos s) _exit)) /\
    (forall q,
       q ∈ uninitializedAccessesOrdered kindOrdinal lib
             (infoAt (nodeInfos s) _exit) ->
       ~ (ptr_node q = n /\ ptr_index q = i)) /\
    (forall m q,
       q ∈ uninitializedVariableAccesses (infoAt (nodeInfos s) m) ->
       ~ (ptr_node q = n /\ ptr_index q = i)).
Proof.
  intros Hlib H Hi Hj Hlt Hk Hd Hmid.
  apply (checkUninitializedAccess_returns _ _ Hlib) in H as (s & Ht & ->).
  destruct (traverse_result _ _ _ _ Ht) as [[_ Hheld] _].
  assert (forall m q,
            q ∈ uninitializedVariableAccesses (infoAt (nodeInfos s) m) ->
            ~ (ptr_node q = n /\ ptr_index q = i)) as Hnot.
  { intros m q Hq [Hn Hqi].
    destruct (Hheld _ _ Hq) as ((Hv & _ & _ & U & HU) & _).
    unfold validPtr in Hv. rewrite Hn, Hqi in Hv, HU.
    assert (pointee q = o) as Ho by congruence. rewrite Ho in HU.
    revert HU. exact (assigned_before _ j i a _ U Hj Hlt Hk Hd Hmid). }
  exists s. split; [done|split; [done|split; [|done]]].
  intros q Hq. apply (elem_of_ordered _ _ Hlib) in Hq. by eapply Hnot.
Qed.

Lemma assigned_access_not_reported_witness :
  let o := Examples.R Examples.x 21 in
  let a := Examples.A Examples.x 20 in
  Conforming referenceLibrary /\
  checkUninitializedAccess Examples.ordinal referenceLibrary 3
    Examples.assignedFirst 3%positive 2%positive [] = Some [] /\
  variableOccurrences (node Examples.assignedFirst 1%positive) !! 1%nat
    = Some o /\
  variableOccurrences (node Examples.assignedFirst 1%positive) !! 0%nat
    = Some a /\
  exists s,
    traverse 3 Examples.assignedFirst (initialState 3%positive) = Some s /\
    [] = [] ++
      (diagnosticOf <$>
         uninitializedAccessesOrdered Examples.ordinal referenceLibrary
           (infoAt (nodeInfos s) 2%positive)) /\
    (forall q,
       q ∈ uninitializedAccessesOrdered Examples.ordinal referenceLibrary
             (infoAt (nodeInfos s) 2%positive) ->
       ~ (ptr_node q = 1%positive /\ ptr_index q = 1%nat)) /\
    (forall m q,
       q ∈ uninitializedVariableAccesses (infoAt (nodeInfos s) m) ->
       ~ (ptr_node q = 1%positive /\ ptr_index q = 1%nat)).
Proof.
  intros o a.
  assert (checkUninitializedAccess Examples.ordinal referenceLibrary 3
            Examples.assignedFirst 3%positive 2%positive [] = Some [])
    as H by (vm_compute; reflexivity).
  split; [exact referenceLibrary_conforming|].
  split; [exact H|split; [reflexivity|split; [reflexivity|]]].
  refine (assigned_access_not_reported Examples.ordinal referenceLibrary 3
            Examples.assignedFirst 3%positive 2%positive [] []
            1%positive 1%nat 0%nat a o
            referenceLibrary_conforming H eq_refl eq_refl _
            (or_introl eq_refl) eq_refl _).
  - lia.
  - intros k b Hk. lia.
Defined.

(** ** Determinism *)

(** Two conforming libraries lead to the same diagnostics for the pending
    accesses of a state the loop ends in. *)
Lemma ordered_diagnostics_agree kindOrdinal lib1 lib2 cfg _entry fuel s _exit :
  Conforming lib1 -> Conforming lib2 -> idsIdentify cfg ->
  traverse fuel cfg (initialState _entry) = Some s ->
  diagnosticOf <$>
    uninitializedAccessesOrdered kindOrdinal lib1 (infoAt (nodeInfos s) _exit)
  = diagnosticOf <$>
    uninitializedAccessesOrdered kindOrdinal lib2 (infoAt (nodeInfos s) _exit).
Proof.
  intros H1 H2 Hids Ht.
  destruct (traverse_result _ _ _ _ Ht) as [[_ Hheld] _].
  assert (forall lib, Conforming lib ->
            Forall (validPtr cfg)
              (uninitializedAccessesOrdered kindOrdinal lib
                 (infoAt (nodeInfos s) _exit))) as Hvalid.
  { intros lib Hlib. apply Forall_forall. intros p Hp.
    apply (elem_of_ordered _ _ Hlib) in Hp.
    by destruct (Hheld _ _ Hp) as ((Hv & _) & _). }
  apply (diagnostics_of_keys kindOrdinal cfg); auto.
  apply sorted_keys_agree; try by apply ordered_sorted.
  by rewrite !ordered_permutation.
Qed.

Lemma checkUninitializedAccess_agree kindOrdinal lib1 lib2 fuel fuel' cfg
    _entry _exit r1 r1' :
  Conforming lib1 -> Conforming lib2 -> idsIdentify cfg ->
  (fuel <= fuel')%nat ->
  checkUninitializedAccess kindOrdinal lib1 fuel cfg _entry _exit r1 = Some r1' ->
  exists emitted,
    r1' = r1 ++ emitted /\
    forall r2,
      checkUninitializedAccess kindOrdinal lib2 fuel' cfg _entry _exit r2
      = Some (r2 ++ emitted).
Proof.
  intros H1 H2 Hids Hfuel H.
  apply (checkUninitializedAccess_returns _ _ H1) in H as (s & Ht & ->).
  eexists. split; [done|]. intros r2.
  rewrite (checkUninitializedAccess_runs _ _ H2 _ _ _ _ _ _
             (traverse_more_fuel _ _ _ _ _ Ht Hfuel)).
  by rewrite (ordered_diagnostics_agree _ lib1 lib2 _ _ _ _ _ H1 H2 Hids Ht).
Qed.

Lemma accept_agree kindOrdinal lib1 lib2 fuel fuel' cfg _astRoot r1 r1' :
  Conforming lib1 -> Conforming lib2 -> idsIdentify cfg ->
  (fuel <= fuel')%nat ->
  accept kindOrdinal lib1 fuel cfg _astRoot r1 = Some r1' ->
  exists emitted,
    r1' = r1 ++ emitted /\
    forall r2,
      accept kindOrdinal lib2 fuel' cfg _astRoot r2 = Some (r2 ++ emitted).
Proof.
  intros H1 H2 Hids Hfuel. revert r1.
  induction _astRoot as [|f rest IH]; intros r1; simpl.
  - intros [= <-]. exists []. split; [by rewrite app_nil_r|].
    intros r2. by rewrite app_nil_r.
  - destruct (visit kindOrdinal lib1 fuel cfg f r1) as [r1a|] eqn:Ev; [|done].
    intros Hrest. apply IH in Hrest as (e2 & -> & Hrest).
    unfold visit in *. destruct (isImplemented f).
    + apply (checkUninitializedAccess_agree _ _ lib2 _ fuel') in Ev
        as (e1 & -> & Hv); try done.
      exists (e1 ++ e2). split; [by rewrite app_assoc|].
      intros r2. by rewrite Hv, Hrest, app_assoc.
    + injection Ev as <-. exists e2. split; [done|]. intros r2. apply Hrest.
Qed.

Lemma straight_idsIdentify : idsIdentify Examples.straight.
Proof.
  intros n m i j a b Ha Hb.
  destruct n as [n|n|]; simpl in Ha; try done.
  destruct m as [m|m|]; simpl in Hb; try done.
  destruct i as [|[|i]], j as [|[|j]]; simpl in Ha, Hb; try done;
    injection Ha as <-; injection Hb as <-; simpl;
    (split; [done|]); intros na nb Hna Hnb; try done; congruence.
Qed.

(** C2.  Two runs of the analyzer on the same tree and graph emit the same
    sequence of diagnostics, entry for entry (location, secondary
    locations, message): whatever the reporter held before each run,
    whatever order the pointer-keyed sets are traversed in, whatever order
    [std::sort] leaves equal keys in, and whatever bound on the number of
    rounds lets the first run return.  The analyzer keeps nothing between
    calls: what a run emits depends on the tree and the graph alone, and
    the second run appends to its reporter what the first one appended to
    its own. *)
Theorem analyze_deterministic kindOrdinal lib1 lib2 fuel fuel' cfg _astRoot
    r1 r2 r1' b1 :
  Conforming lib1 -> Conforming lib2 -> idsIdentify cfg ->
  (fuel <= fuel')%nat ->
  analyze kindOrdinal lib1 fuel cfg _astRoot r1 = Some (r1', b1) ->
  exists emitted b2,
    r1' = r1 ++ emitted /\
    analyze kindOrdinal lib2 fuel' cfg _astRoot r2 = Some (r2 ++ emitted, b2).
Proof.
  intros H1 H2 Hids Hfuel. unfold analyze.
  destruct (accept kindOrdinal lib1 fuel cfg _astRoot r1) as [r|] eqn:Ea; [|done].
  intros [= <- <-].
  apply (accept_agree _ _ lib2 _ fuel') in Ea as (emitted & -> & Hrun); try done.
  exists emitted. eexists. split; [done|]. by rewrite Hrun.
Qed.

Lemma analyze_deterministic_witness :
  let d := diagnosticOf (mkPtr 1%positive 1 (Examples.R Examples.x 20)) in
  Conforming referenceLibrary /\ Conforming reversedLibrary /\
  idsIdentify Examples.straight /\ (2 <= 5)%nat /\
  analyze Examples.ordinal referenceLibrary 2 Examples.straight
    [mkFun 1 true] [] = Some ([d], false) /\
  exists emitted b2,
    [d] = [] ++ emitted /\
    analyze Examples.ordinal reversedLibrary 5 Examples.straight
      [mkFun 1 true] [d] = Some ([d] ++ emitted, b2).
Proof.
  intros d.
  assert (analyze Examples.ordinal referenceLibrary 2 Examples.straight
            [mkFun 1 true] [] = Some ([d], false)) as H
    by (vm_compute; reflexivity).
  assert (2 <= 5)%nat as Hfuel by lia.
  split; [exact referenceLibrary_conforming|].
  split; [exact reversedLibrary_conforming|].
  split; [exact straight_idsIdentify|].
  split; [exact Hfuel|].
  split; [exact H|].
  exact (analyze_deterministic Examples.ordinal referenceLibrary
           reversedLibrary 2 5 Examples.straight [mkFun 1 true] [] [d] [d] false
           referenceLibrary_conforming reversedLibrary_conforming
           straight_idsIdentify Hfuel H).
Defined.

(** ** Runs of the loop that do not end *)

Lemma traverse_round fuel cfg s :
  nodesToTraverse s <> [] ->
  traverse (S fuel) cfg s = traverse fuel cfg (iteration cfg s).
Proof. simpl. by destruct (nodesToTraverse s). Qed.

Lemma traverse_out_of_fuel cfg s :
  nodesToTraverse s <> [] -> traverse 0 cfg s = None.
Proof. simpl. by destruct (nodesToTraverse s). Qed.

(** A set of states with a non-empty stack that a round does not leave:
    from any of them the loop uses up any fuel. *)
Lemma traverse_never_ends cfg (P : State -> Prop) :
  (forall t, P t -> nodesToTraverse t <> [] /\ P (iteration cfg t)) ->
  forall fuel s, P s -> traverse fuel cfg s = None.
Proof.
  intros HP. induction fuel as [|fuel IH]; intros s Hs;
    destruct (HP s Hs) as [Hne Hnext].
  - by apply traverse_out_of_fuel.
  - rewrite traverse_round by done. by apply IH.
Qed.

Lemma traverse_never_ends_after cfg s :
  nodesToTraverse s <> [] ->
  (forall fuel, traverse fuel cfg (iteration cfg s) = None) ->
  forall fuel, traverse fuel cfg s = None.
Proof.
  intros Hne Hnext [|fuel].
  - by apply traverse_out_of_fuel.
  - by rewrite traverse_round.
Qed.

(** The state of [twoBlockLoop] after three rounds comes back after two
    more. *)
Lemma twoBlockLoop_period :
  let s3 := iteration Examples.twoBlockLoop
              (iteration Examples.twoBlockLoop
                 (iteration Examples.twoBlockLoop (initialState 1%positive))) in
  nodesToTraverse s3 = [1%positive] /\
  nodesToTraverse (iteration Examples.twoBlockLoop s3) = [2%positive] /\
  iteration Examples.twoBlockLoop (iteration Examples.twoBlockLoop s3) = s3.
Proof. vm_compute. split; [reflexivity|split; reflexivity]. Qed.

Lemma twoBlockLoop_traverse fuel :
  traverse fuel Examples.twoBlockLoop (initialState 1%positive) = None.
Proof.
  destruct twoBlockLoop_period as (H3 & H4 & Hper).
  revert fuel.
  do 3 (apply traverse_never_ends_after; [by vm_compute|]).
  set (s3 := iteration _ (iteration _ (iteration _ _))) in *.
  intros fuel.
  apply (traverse_never_ends _
           (fun t => t = s3 \/ t = iteration Examples.twoBlockLoop s3));
    [|by left].
  intros t [-> | ->].
  - split; [by rewrite H3|by right].
  - split; [by rewrite H4|left; exact Hper].
Qed.

(** C7, the failing input.  A loop of two blocks, [1: A(y), D(x)] and
    [2: A(x), D(y)], entered at block 1, block 2 leading back to block 1
    and on to the exit 3: two blocks, two declarations, no access.  Each
    round for block 1 erases [y] from its stored set and makes the set of
    block 2 grow by [x]; each round for block 2 erases [x] and makes the set
    of block 1 grow by [y].  The stack never gets empty: the call returns
    for no bound on the number of rounds. *)
Theorem twoBlockLoop_never_returns kindOrdinal lib fuel reporter :
  checkUninitializedAccess kindOrdinal lib fuel Examples.twoBlockLoop
    1%positive 3%positive reporter = None.
Proof.
  unfold checkUninitializedAccess. by rewrite twoBlockLoop_traverse.
Qed.

Lemma closedLoop_period :
  let s := iteration Examples.closedLoop
             (iteration Examples.closedLoop (initialState 1%positive)) in
  nodesToTraverse s = [1%positive] /\
  nodesToTraverse (iteration Examples.closedLoop s) = [2%positive] /\
  iteration Examples.closedLoop (iteration Examples.closedLoop s) = s.
Proof. vm_compute. split; [reflexivity|split; reflexivity]. Qed.

Lemma closedLoop_traverse fuel :
  traverse fuel Examples.closedLoop (initialState 1%positive) = None.
Proof.
  destruct closedLoop_period as (H2 & H3 & Hper).
  revert fuel.
  do 2 (apply traverse_never_ends_after; [by vm_compute|]).
  set (s := iteration _ (iteration _ _)) in *.
  intros fuel.
  apply (traverse_never_ends _
           (fun t => t = s \/ t = iteration Examples.closedLoop s));
    [|by left].
  intros t [-> | ->].
  - split; [by rewrite H2|by right].
  - split; [by rewrite H3|left; exact Hper].
Qed.

Lemma closedLoop_reaches n :
  reaches Examples.closedLoop 1%positive n -> n = 1%positive \/ n = 2%positive.
Proof.
  revert n. apply rtc_ind_r; [by left|].
  intros y z _ Hedge [-> | ->]; unfold edge in Hedge; simpl in Hedge;
    apply list_elem_of_singleton in Hedge; auto.
Qed.

(** With an exit that cannot be reached from the entry, a call that
    returns has emitted nothing. *)
Lemma unreachable_exit_silent kindOrdinal lib fuel cfg _entry _exit
    reporter reporter' :
  ~ reaches cfg _entry _exit ->
  checkUninitializedAccess kindOrdinal lib fuel cfg _entry _exit reporter
    = Some reporter' ->
  reporter' = reporter.
Proof.
  intros Hun. unfold checkUninitializedAccess.
  destruct (traverse fuel cfg (initialState _entry)) as [s|] eqn:Ht; [|done].
  destruct (traverse_result _ _ _ _ Ht) as [[_ Hheld] _].
  rewrite bool_decide_eq_true_2; [by intros [= <-]|].
  apply set_eq. intros p. split; [|set_solver].
  intros Hp. destruct (Hheld _ _ Hp) as (_ & Hfrom & Hto).
  destruct Hun. by etrans.
Qed.

(** C10, the failing input.  The loop of the two blocks [1: A(y), D(x)]
    and [2: A(x), D(y)], with no edge to the exit 3.  The exit cannot be
    reached from the entry, and the call does not return: the stack never
    gets empty. *)
Theorem closedLoop_never_returns kindOrdinal lib fuel reporter :
  ~ reaches Examples.closedLoop 1%positive 3%positive /\
  checkUninitializedAccess kindOrdinal lib fuel Examples.closedLoop
    1%positive 3%positive reporter = None.
Proof.
  split.
  - intros H. by apply closedLoop_reaches in H as [H|H].
  - unfold checkUninitializedAccess. by rewrite closedLoop_traverse.
Qed.

(** * Further properties of the analyzer *)

(** ** [NodeInfo::propagateFrom] *)

Lemma size_union_grows `{Countable A} (X Y : gset A) :
  (size X < size (X ∪ Y))%nat <-> ~ Y ⊆ X.
Proof.
  split.
  - intros Hlt Hsub. assert (X ∪ Y = X) as E by set_solver.
    rewrite E in Hlt. lia.
  - intros Hn. apply subset_size. split; [set_solver|].
    intros Hsub. apply Hn. set_solver.
Qed.

Lemma propagateFrom_no_growth this other :
  (propagateFrom this other).2 = false -> (propagateFrom this other).1 = this.
Proof.
  destruct this as [U X]. unfold propagateFrom. simpl.
  rewrite orb_false_iff, !bool_decide_eq_false, !size_union_grows.
  intros [HU HX].
  destruct (decide (unassignedVariables other ⊆ U)); [|tauto].
  destruct (decide (uninitializedVariableAccesses other ⊆ X)); [|tauto].
  f_equal; set_solver.
Qed.

(** X1.  [propagateFrom] returns [true] exactly when the other node holds
    something this one does not hold yet: an unassigned variable or a
    pending access. *)
Theorem propagateFrom_flag (this other : NodeInfo) :
  (propagateFrom this other).2 = true <->
  ~ (unassignedVariables other ⊆ unassignedVariables this /\
     uninitializedVariableAccesses other ⊆ uninitializedVariableAccesses this).
Proof.
  unfold propagateFrom. simpl.
  rewrite orb_true_iff, !bool_decide_eq_true, !size_union_grows.
  destruct (decide (unassignedVariables other ⊆ unassignedVariables this));
    destruct (decide (uninitializedVariableAccesses other
                        ⊆ uninitializedVariableAccesses this)); tauto.
Qed.


(** ** The comparator *)

Lemma keyLt_irrefl u : ~ keyLt u u.
Proof. destruct u as [[? ?] ?]. unfold keyLt. simpl. lia. Qed.

Lemma keyLt_trans u v w : keyLt u v -> keyLt v w -> keyLt u w.
Proof.
  destruct u as [[? ?] ?], v as [[? ?] ?], w as [[? ?] ?].
  unfold keyLt. simpl. lia.
Qed.

Lemma keyLt_incomparable_trans u v w :
  ~ keyLt u v -> ~ keyLt v u -> ~ keyLt v w -> ~ keyLt w v ->
  ~ keyLt u w /\ ~ keyLt w u.
Proof.
  destruct u as [[? ?] ?], v as [[? ?] ?], w as [[? ?] ?].
  unfold keyLt. simpl. lia.
Qed.

(** X3.  The comparator handed to [sort] is a strict weak ordering, as
    [std::sort] requires: no occurrence is less than itself, it is
    transitive, and being unordered either way is transitive. *)
Theorem occurrenceLess_strict_weak kindOrdinal :
  (forall a, occurrenceLess kindOrdinal a a = false) /\
  (forall a b c,
     occurrenceLess kindOrdinal a b = true ->
     occurrenceLess kindOrdinal b c = true ->
     occurrenceLess kindOrdinal a c = true) /\
  (forall a b c,
     occurrenceLess kindOrdinal a b = false ->
     occurrenceLess kindOrdinal b a = false ->
     occurrenceLess kindOrdinal b c = false ->
     occurrenceLess kindOrdinal c b = false ->
     occurrenceLess kindOrdinal a c = false /\
     occurrenceLess kindOrdinal c a = false).
Proof.
  split; [|split].
  - intros a. apply not_true_iff_false. rewrite occurrenceLess_key.
    apply keyLt_irrefl.
  - intros a b c. rewrite !occurrenceLess_key. apply keyLt_trans.
  - intros a b c. rewrite <- !not_true_iff_false, !occurrenceLess_key.
    apply keyLt_incomparable_trans.
Qed.

Lemma occurrenceLess_strict_weak_witness :
  occurrenceLess Examples.ordinal Examples.unbound Examples.bound = true /\
  occurrenceLess Examples.ordinal Examples.bound
    (mkPtr 2%positive 0 (Examples.R Examples.y 30)) = true /\
  occurrenceLess Examples.ordinal Examples.unbound
    (mkPtr 2%positive 0 (Examples.R Examples.y 30)) = true.
Proof.
  assert (occurrenceLess Examples.ordinal Examples.unbound Examples.bound
          = true) as H1 by reflexivity.
  assert (occurrenceLess Examples.ordinal Examples.bound
            (mkPtr 2%positive 0 (Examples.R Examples.y 30)) = true)
    as H2 by reflexivity.
  split; [exact H1|split; [exact H2|]].
  exact (proj1 (proj2 (occurrenceLess_strict_weak Examples.ordinal))
           _ _ _ H1 H2).
Defined.

(** ** What is reported, and in what order *)

(** X4.  Whatever is reported denotes an access to a declaration whose
    type is stored in storage: every pointer of the vector the emission
    loop runs over points to an occurrence of the graph that is of kind
    [Access] and whose declaration is storage-located.  An occurrence of
    another kind, or of a declaration located elsewhere, never gives a
    diagnostic. *)
Theorem only_storage_accesses_reported kindOrdinal lib fuel cfg _entry _exit
    reporter reporter' :
  Conforming lib ->
  checkUninitializedAccess kindOrdinal lib fuel cfg _entry _exit reporter
    = Some reporter' ->
  exists s,
    traverse fuel cfg (initialState _entry) = Some s /\
    reporter' = reporter ++
      (diagnosticOf <$>
         uninitializedAccessesOrdered kindOrdinal lib
           (infoAt (nodeInfos s) _exit)) /\
    forall p,
      p ∈ uninitializedAccessesOrdered kindOrdinal lib
            (infoAt (nodeInfos s) _exit) ->
      variableOccurrences (node cfg (ptr_node p)) !! ptr_index p
        = Some (pointee p) /\
      kind (pointee p) = Access /\
      decl_dataStoredInStorage (declaration (pointee p)) = true.
Proof.
  intros Hlib H.
  apply (checkUninitializedAccess_returns _ _ Hlib) in H as (s & Ht & ->).
  destruct (traverse_result _ _ _ _ Ht) as [[_ Hheld] _].
  exists s. split; [done|split; [done|]]. intros p Hp.
  apply (elem_of_ordered _ _ Hlib) in Hp.
  destruct (Hheld _ _ Hp) as ((Hv & Hk & Hst & _) & _). auto.
Qed.

Lemma only_storage_accesses_reported_witness :
  let py := mkPtr 1%positive 3 (Examples.R Examples.y 20) in
  let px := mkPtr 1%positive 2 (Examples.R Examples.x 30) in
  Conforming referenceLibrary /\
  checkUninitializedAccess Examples.ordinal referenceLibrary 2
    Examples.twoReports 1%positive 2%positive []
  = Some [diagnosticOf py; diagnosticOf px] /\
  exists s,
    traverse 2 Examples.twoReports (initialState 1%positive) = Some s /\
    [diagnosticOf py; diagnosticOf px] = [] ++
      (diagnosticOf <$>
         uninitializedAccessesOrdered Examples.ordinal referenceLibrary
           (infoAt (nodeInfos s) 2%positive)) /\
    forall p,
      p ∈ uninitializedAccessesOrdered Examples.ordinal referenceLibrary
            (infoAt (nodeInfos s) 2%positive) ->
      variableOccurrences (node Examples.twoReports (ptr_node p)) !! ptr_index p
        = Some (pointee p) /\
      kind (pointee p) = Access /\
      decl_dataStoredInStorage (declaration (pointee p)) = true.
Proof.
  intros py px.
  assert (checkUninitializedAccess Examples.ordinal referenceLibrary 2
            Examples.twoReports 1%positive 2%positive []
          = Some [diagnosticOf py; diagnosticOf px])
    as H by (vm_compute; reflexivity).
  split; [exact referenceLibrary_conforming|split; [exact H|]].
  exact (only_storage_accesses_reported _ _ _ _ _ _ _ _
           referenceLibrary_conforming H).
Defined.

(** X5.  The diagnostics of one call are appended in the comparator's
    order: in the vector the emission loop runs over, a later pointer is
    never less than an earlier one.  So an occurrence without a bound
    syntax node is not reported behind one that has a bound syntax node,
    and of two that have one, the syntax-node ids do not decrease. *)
Theorem diagnostics_in_order kindOrdinal lib fuel cfg _entry _exit
    reporter reporter' :
  Conforming lib ->
  checkUninitializedAccess kindOrdinal lib fuel cfg _entry _exit reporter
    = Some reporter' ->
  exists s,
    traverse fuel cfg (initialState _entry) = Some s /\
    reporter' = reporter ++
      (diagnosticOf <$>
         uninitializedAccessesOrdered kindOrdinal lib
           (infoAt (nodeInfos s) _exit)) /\
    forall i j a b,
      (i < j)%nat ->
      uninitializedAccessesOrdered kindOrdinal lib
        (infoAt (nodeInfos s) _exit) !! i = Some a ->
      uninitializedAccessesOrdered kindOrdinal lib
        (infoAt (nodeInfos s) _exit) !! j = Some b ->
      occurrenceLess kindOrdinal b a = false /\
      (occurrence (pointee b) = None -> occurrence (pointee a) = None) /\
      (forall na nb,
         occurrence (pointee a) = Some na -> occurrence (pointee b) = Some nb ->
         node_id na <= node_id nb).
Proof.
  intros Hlib H.
  apply (checkUninitializedAccess_returns _ _ Hlib) in H as (s & Ht & ->).
  exists s. split; [done|split; [done|]]. intros i j a b Hij Ha Hb.
  pose proof (ordered_sorted kindOrdinal lib Hlib (infoAt (nodeInfos s) _exit))
    as Hsorted.
  assert (notAfter (occurrenceLess kindOrdinal) a b) as Hab.
  { revert Hsorted i j Hij Ha Hb.
    generalize (uninitializedAccessesOrdered kindOrdinal lib
                  (infoAt (nodeInfos s) _exit)).
    intros l Hsorted. induction Hsorted as [|c l Hl IH Hc]; intros i j Hij Ha Hb.
    - done.
    - destruct j as [|j]; [lia|]. destruct i as [|i]; simpl in *.
      + injection Ha as ->. rewrite Forall_forall in Hc. apply Hc.
        by eapply list_elem_of_lookup_2.
      + apply (IH i j); [lia|done|done]. }
  split; [exact Hab|].
  unfold notAfter, occurrenceLess in Hab.
  destruct (occurrence (pointee a)) as [na|], (occurrence (pointee b)) as [nb|];
    try done.
  split; [done|]. intros ? ? [= <-] [= <-].
  destruct (N.ltb_spec (node_id nb) (node_id na)); [done|lia].
Qed.

Lemma diagnostics_in_order_witness :
  let py := mkPtr 1%positive 3 (Examples.R Examples.y 20) in
  let px := mkPtr 1%positive 2 (Examples.R Examples.x 30) in
  Conforming reversedLibrary /\
  checkUninitializedAccess Examples.ordinal reversedLibrary 2
    Examples.twoReports 1%positive 2%positive []
  = Some [diagnosticOf py; diagnosticOf px] /\
  exists s,
    traverse 2 Examples.twoReports (initialState 1%positive) = Some s /\
    [diagnosticOf py; diagnosticOf px] = [] ++
      (diagnosticOf <$>
         uninitializedAccessesOrdered Examples.ordinal reversedLibrary
           (infoAt (nodeInfos s) 2%positive)) /\
    forall i j a b,
      (i < j)%nat ->
      uninitializedAccessesOrdered Examples.ordinal reversedLibrary
        (infoAt (nodeInfos s) 2%positive) !! i = Some a ->
      uninitializedAccessesOrdered Examples.ordinal reversedLibrary
        (infoAt (nodeInfos s) 2%positive) !! j = Some b ->
      occurrenceLess Examples.ordinal b a = false /\
      (occurrence (pointee b) = None -> occurrence (pointee a) = None) /\
      (forall na nb,
         occurrence (pointee a) = Some na -> occurrence (pointee b) = Some nb ->
         node_id na <= node_id nb).
Proof.
  intros py px.
  assert (checkUninitializedAccess Examples.ordinal reversedLibrary 2
            Examples.twoReports 1%positive 2%positive []
          = Some [diagnosticOf py; diagnosticOf px])
    as H by (vm_compute; reflexivity).
  split; [exact reversedLibrary_conforming|split; [exact H|]].
  exact (diagnostics_in_order _ _ _ _ _ _ _ _ reversedLibrary_conforming H).
Defined.

(** ** Functions without a body *)

(** X6.  A tree in which no function definition is implemented is
    analyzed without a look at the graph: [analyze] returns for any bound
    on the rounds, leaves the reporter as it was, and its flag tells
    whether the reporter held only warnings. *)
Theorem analyze_unimplemented kindOrdinal lib fuel cfg
    (_astRoot : list FunctionDefinition) reporter :
  Forall (fun f => isImplemented f = false) _astRoot ->
  analyze kindOrdinal lib fuel cfg _astRoot reporter
  = Some (reporter, containsOnlyWarnings reporter).
Proof.
  intros Hall. unfold analyze.
  assert (accept kindOrdinal lib fuel cfg _astRoot reporter = Some reporter)
    as ->; [|done].
  induction Hall as [|f rest Hf Hrest IH]; simpl; [done|].
  unfold visit. by rewrite Hf.
Qed.

Lemma analyze_unimplemented_witness :
  Forall (fun f => isImplemented f = false) [mkFun 1 false; mkFun 2 false] /\
  analyze Examples.ordinal referenceLibrary 0 Examples.twoBlockLoop
    [mkFun 1 false; mkFun 2 false] []
  = Some ([], containsOnlyWarnings []).
Proof.
  assert (Forall (fun f => isImplemented f = false)
            [mkFun 1 false; mkFun 2 false]) as H
    by (repeat constructor).
  split; [exact H|].
  exact (analyze_unimplemented Examples.ordinal referenceLibrary 0
           Examples.twoBlockLoop _ [] H).
Defined.

(** ** Graphs without cycles *)

Lemma sum_list_fmap_le {A} (f g : A -> nat) (l : list A) :
  (forall a, a ∈ l -> (f a <= g a)%nat) ->
  (sum_list (f <$> l) <= sum_list (g <$> l))%nat.
Proof.
  induction l as [|a l IH]; intros H; csimpl; [done|].
  assert (f a <= g a)%nat by (apply H; left).
  assert (sum_list (f <$> l) <= sum_list (g <$> l))%nat
    by (apply IH; intros; apply H; by right).
  lia.
Qed.

Lemma weight_mono cfg k k' n :
  (k <= k')%nat -> (weight cfg k n <= weight cfg k' n)%nat.
Proof.
  revert k' n. induction k as [|k IH]; intros k' n Hk.
  - destruct k'; simpl; lia.
  - destruct k' as [|k']; [lia|]. simpl.
    apply le_n_S, sum_list_fmap_le. intros e _. apply IH. lia.
Qed.

Section Acyclic.

Variable cfg : CFG.
Variable rank : NodePtr -> nat.
Hypothesis rank_decreases : forall a b, edge cfg a b -> (rank b < rank a)%nat.

Lemma weight_exits n :
  (sum_list ((fun e => weight cfg (rank e) e) <$> exits (node cfg n))
   < weight cfg (rank n) n)%nat.
Proof.
  destruct (rank n) as [|r] eqn:Er; simpl.
  - destruct (exits (node cfg n)) as [|e l] eqn:El; csimpl; [lia|].
    assert (rank e < rank n)%nat
      by (apply rank_decreases; unfold edge; rewrite El; left).
    lia.
  - apply Nat.lt_succ_r, sum_list_fmap_le. intros e He.
    apply weight_mono.
    assert (rank e < rank n)%nat by by apply rank_decreases.
    lia.
Qed.

Lemma exitsLoop_stackWeight cur l s :
  (stackWeight cfg rank (nodesToTraverse (fold_left (propagateToExit cur) l s))
   <= stackWeight cfg rank (nodesToTraverse s)
      + sum_list ((fun e => weight cfg (rank e) e) <$> l))%nat.
Proof.
  revert s. induction l as [|e l IH]; intros s; csimpl; [lia|].
  etrans; [apply IH|].
  destruct (propagateToExit_stack cur s e) as [-> | ->];
    unfold stackWeight; csimpl; lia.
Qed.

Lemma iteration_stackWeight s cur rest :
  nodesToTraverse s = cur :: rest ->
  (stackWeight cfg rank (nodesToTraverse (iteration cfg s))
   < stackWeight cfg rank (nodesToTraverse s))%nat.
Proof.
  intros Hs. unfold iteration. rewrite Hs.
  eapply Nat.le_lt_trans; [apply exitsLoop_stackWeight|]. simpl.
  pose proof (weight_exits cur). unfold stackWeight. csimpl. lia.
Qed.

Lemma traverse_enough fuel s :
  (stackWeight cfg rank (nodesToTraverse s) <= fuel)%nat ->
  is_Some (traverse fuel cfg s).
Proof.
  revert s. induction fuel as [|fuel IH]; intros s Hw; simpl;
    destruct (nodesToTraverse s) as [|cur rest] eqn:Es; try done.
  - unfold stackWeight in Hw. csimpl in Hw.
    pose proof (weight_mono cfg 0 (rank cur) cur). simpl in *. lia.
  - apply IH.
    pose proof (iteration_stackWeight s cur rest Es) as Hlt.
    rewrite Es in Hlt. lia.
Qed.

End Acyclic.

(** X7.  On a graph without cycles (its nodes can be ranked so that every
    edge leads to a lower rank) the worklist loop comes to an end and the
    call returns; [weight] of the entry bounds the number of rounds. *)
Theorem acyclic_returns kindOrdinal lib cfg (rank : NodePtr -> nat) fuel
    _entry _exit reporter :
  (forall a b, edge cfg a b -> (rank b < rank a)%nat) ->
  (weight cfg (rank _entry) _entry <= fuel)%nat ->
  exists reporter',
    checkUninitializedAccess kindOrdinal lib fuel cfg _entry _exit reporter
    = Some reporter'.
Proof.
  intros Hrank Hfuel.
  destruct (traverse_enough cfg rank Hrank fuel (initialState _entry))
    as [s Hs].
  { unfold stackWeight. simpl. lia. }
  unfold checkUninitializedAccess. rewrite Hs.
  case_bool_decide; eauto.
Qed.

Lemma acyclic_returns_witness :
  let rank := fun n : NodePtr => match n with 1%positive => 1%nat | _ => 0%nat end in
  (forall a b, edge Examples.straight a b -> (rank b < rank a)%nat) /\
  (weight Examples.straight (rank 1%positive) 1%positive <= 2)%nat /\
  exists reporter',
    checkUninitializedAccess Examples.ordinal referenceLibrary 2
      Examples.straight 1%positive 2%positive [] = Some reporter'.
Proof.
  intros rank.
  assert (forall a b, edge Examples.straight a b -> (rank b < rank a)%nat)
    as Hrank.
  { intros a b. unfold edge.
    destruct a as [a|a|]; simpl; intros Hb;
      try (by apply elem_of_nil in Hb).
    apply list_elem_of_singleton in Hb as ->. simpl. lia. }
  assert (weight Examples.straight (rank 1%positive) 1%positive <= 2)%nat
    as Hfuel by (simpl; lia).
  split; [exact Hrank|split; [exact Hfuel|]].
  exact (acyclic_returns Examples.ordinal referenceLibrary Examples.straight
           rank 2 1%positive 2%positive [] Hrank Hfuel).
Defined.

(** ** Where the loop goes, and where unassigned variables come from *)

Lemma unassignedEffect_origin occs U d :
  d ∈ fold_left unassignedEffect occs U ->
  d ∈ U \/
  exists i o, occs !! i = Some o /\ kind o = Declaration /\ declaration o = d.
Proof.
  revert U. induction occs as [|o rest IH]; intros U; simpl; [auto|].
  intros Hd. apply IH in Hd as [Hd|(i & o' & Hi & Hk & Ho)].
  - unfold unassignedEffect in Hd. destruct (kind o) eqn:Hk.
    + left. set_solver.
    + left. set_solver.
    + by left.
    + apply elem_of_union in Hd as [Hd|Hd]; [|by left].
      apply elem_of_singleton in Hd. right. by exists 0%nat, o.
  - right. by exists (S i), o'.
Qed.

Lemma visitInvariant_initial cfg _entry :
  visitInvariant cfg _entry (initialState _entry).
Proof.
  split; [|split; [|split]]; simpl.
  - repeat constructor.
  - intros n [i Hi]. by rewrite lookup_empty in Hi.
  - intros n d. unfold infoAt. rewrite lookup_empty. simpl. set_solver.
  - intros n p. unfold infoAt. rewrite lookup_empty. simpl. set_solver.
Qed.

Lemma propagateToExit_visitInvariant cfg _entry cur s e :
  visitInvariant cfg _entry s ->
  reaches cfg _entry cur -> edge cfg cur e ->
  visitInvariant cfg _entry (propagateToExit cur s e).
Proof.
  intros (Hstack & Hkeys & HU & HX) Hcur He.
  assert (reaches cfg _entry e) as Hre by (eapply rtc_r; eauto).
  split; [|split; [|split]].
  - destruct (propagateToExit_stack cur s e) as [-> | ->]; [done|].
    by constructor.
  - intros n. rewrite propagateToExit_infos, lookup_insert.
    case_decide as Hn; [by subst n|apply Hkeys].
  - intros n d. rewrite propagateToExit_infos, infoAt_insert.
    case_decide as Hn; [subst n|by apply HU].
    rewrite propagateFrom_unassigned, elem_of_union.
    intros [Hd|Hd]; eapply HU; eauto.
  - intros n p. rewrite propagateToExit_infos, infoAt_insert.
    case_decide as Hn; [subst n|by apply HX].
    rewrite propagateFrom_accesses, elem_of_union.
    intros [Hp|Hp]; eapply HX; eauto.
Qed.

Lemma exitsLoop_visitInvariant cfg _entry cur l s :
  visitInvariant cfg _entry s ->
  reaches cfg _entry cur -> Forall (edge cfg cur) l ->
  visitInvariant cfg _entry (fold_left (propagateToExit cur) l s).
Proof.
  intros Hs Hcur Hl. revert s Hs.
  induction Hl as [|e l He Hl IH]; intros s Hs; simpl; [done|].
  apply IH. by apply propagateToExit_visitInvariant.
Qed.

Lemma iteration_visitInvariant cfg _entry s :
  visitInvariant cfg _entry s -> visitInvariant cfg _entry (iteration cfg s).
Proof.
  intros (Hstack & Hkeys & HU & HX). unfold iteration.
  destruct (nodesToTraverse s) as [|cur rest] eqn:Es.
  { split; [by rewrite Es|auto]. }
  apply Forall_cons in Hstack as [Hcur Hrest].
  apply exitsLoop_visitInvariant; [|done|by apply Forall_forall].
  assert (forall d occs,
            (forall i o, occs !! i = Some o ->
               variableOccurrences (node cfg cur) !! i = Some o) ->
            d ∈ fold_left unassignedEffect occs
                  (unassignedVariables (infoAt (nodeInfos s) cur)) ->
            declaredFrom cfg _entry d) as Horigin.
  { intros d occs Hsub Hd.
    apply unassignedEffect_origin in Hd as [Hd|(i & o & Hi & Hk & Ho)].
    - eapply HU; eauto.
    - exists cur, i, o. auto. }
  split; [|split; [|split]]; simpl.
  - done.
  - intros n. rewrite lookup_insert.
    case_decide as Hn; [by subst n|apply Hkeys].
  - intros n d. rewrite infoAt_insert.
    case_decide as Hn; [subst n|by apply HU].
    rewrite visitOccurrences_unassigned. by apply Horigin.
  - intros n p. rewrite infoAt_insert.
    case_decide as Hn; [subst n|by apply HX].
    intros Hp. apply visitOccurrences_accesses in Hp
      as [Hp|(j & o & Hj & -> & Hk & Hst & Hu)]; [by eapply HX|].
    simpl. apply (Horigin _ (take j (variableOccurrences (node cfg cur))));
      [|exact Hu].
    intros i o' Hi. by apply lookup_take_Some in Hi as [Hi _].
Qed.

Lemma traverse_visitInvariant cfg _entry fuel s s' :
  traverse fuel cfg s = Some s' ->
  visitInvariant cfg _entry s -> visitInvariant cfg _entry s'.
Proof.
  revert s. induction fuel as [|fuel IH]; intros s; simpl;
    destruct (nodesToTraverse s) eqn:Es; try done.
  - by intros [= <-].
  - by intros [= <-].
  - intros Ht Hs. apply (IH _ Ht). by apply iteration_visitInvariant.
Qed.

(** X8.  The loop gives a [NodeInfo] to no block that cannot be reached
    from the entry: when it has ended, the map has no key for such a
    block. *)
Theorem unreachable_block_not_visited fuel cfg _entry s (n : NodePtr) :
  traverse fuel cfg (initialState _entry) = Some s ->
  ~ reaches cfg _entry n ->
  nodeInfos s !! n = None.
Proof.
  intros Ht Hn.
  destruct (traverse_visitInvariant _ _ _ _ _ Ht
              (visitInvariant_initial cfg _entry)) as (_ & Hkeys & _).
  destruct (nodeInfos s !! n) eqn:E; [|done].
  destruct Hn. apply Hkeys. by rewrite E.
Qed.

Lemma unreachable_block_not_visited_witness :
  let s := iteration Examples.straight (initialState 2%positive) in
  traverse 1 Examples.straight (initialState 2%positive) = Some s /\
  ~ reaches Examples.straight 2%positive 1%positive /\
  nodeInfos s !! 1%positive = None.
Proof.
  intros s.
  assert (traverse 1 Examples.straight (initialState 2%positive) = Some s)
    as Ht by reflexivity.
  assert (~ reaches Examples.straight 2%positive 1%positive) as Hn.
  { intros H. apply rtc_inv in H as [H|(m & Hedge & _)]; [discriminate|].
    unfold edge in Hedge. simpl in Hedge. by apply elem_of_nil in Hedge. }
  split; [exact Ht|split; [exact Hn|]].
  exact (unreachable_block_not_visited 1 Examples.straight 2%positive s
           1%positive Ht Hn).
Defined.

(** X9.  A declaration is reported only if the graph declares it: for
    every reported access, a [Declaration] occurrence of its declaration
    lies in a block that can be reached from the entry.  Variables the
    graph never declares (no [Declaration] occurrence) are never
    reported, however they are accessed. *)
Theorem reported_only_if_declared kindOrdinal lib fuel cfg _entry _exit
    reporter reporter' :
  Conforming lib ->
  checkUninitializedAccess kindOrdinal lib fuel cfg _entry _exit reporter
    = Some reporter' ->
  exists reported,
    reporter' = reporter ++ (diagnosticOf <$> reported) /\
    forall p, p ∈ reported ->
      declaredFrom cfg _entry (declaration (pointee p)).
Proof.
  intros Hlib H.
  apply (checkUninitializedAccess_returns _ _ Hlib) in H as (s & Ht & ->).
  destruct (traverse_visitInvariant _ _ _ _ _ Ht
              (visitInvariant_initial cfg _entry)) as (_ & _ & _ & HX).
  eexists. split; [done|]. intros p Hp.
  apply (elem_of_ordered _ _ Hlib) in Hp. by eapply HX.
Qed.

Lemma reported_only_if_declared_witness :
  Conforming referenceLibrary /\
  checkUninitializedAccess Examples.ordinal referenceLibrary 2
    Examples.straight 1%positive 2%positive []
  = Some [diagnosticOf (mkPtr 1%positive 1 (Examples.R Examples.x 20))] /\
  exists reported,
    [diagnosticOf (mkPtr 1%positive 1 (Examples.R Examples.x 20))]
    = [] ++ (diagnosticOf <$> reported) /\
    forall p, p ∈ reported ->
      declaredFrom Examples.straight 1%positive (declaration (pointee p)).
Proof.
  assert (checkUninitializedAccess Examples.ordinal referenceLibrary 2
            Examples.straight 1%positive 2%positive []
          = Some [diagnosticOf (mkPtr 1%positive 1 (Examples.R Examples.x 20))])
    as H by (vm_compute; reflexivity).
  split; [exact referenceLibrary_conforming|split; [exact H|]].
  exact (reported_only_if_declared _ _ _ _ _ _ _ _
           referenceLibrary_conforming H).
Defined.

(** ** Pending accesses flow to the exit *)

Lemma propagateToExit_cases cur s e :
  (nodesToTraverse (propagateToExit cur s e) = e :: nodesToTraverse s) \/
  (nodesToTraverse (propagateToExit cur s e) = nodesToTraverse s /\
   forall n, infoAt (nodeInfos (propagateToExit cur s e)) n
             = infoAt (nodeInfos s) n).
Proof.
  pose proof (propagateToExit_infos cur s e) as Hinfos.
  pose proof (propagateFrom_no_growth (infoAt (nodeInfos s) e)
                (infoAt (nodeInfos s) cur)) as Hsame.
  unfold propagateToExit in *.
  destruct (propagateFrom _ _) as [i [|]]; simpl in *; [by left|right].
  split; [done|]. intros n. rewrite infoAt_insert.
  case_decide as Hn; [subst n|done]. by apply Hsame.
Qed.

Lemma exitsLoop_stack_keeps cur l s n :
  n ∈ nodesToTraverse s ->
  n ∈ nodesToTraverse (fold_left (propagateToExit cur) l s).
Proof.
  revert s. induction l as [|e l IH]; intros s Hn; simpl; [done|].
  apply IH. destruct (propagateToExit_stack cur s e) as [-> | ->];
    [done|by right].
Qed.

Lemma exitsLoop_queued_or_same cur l s n :
  n ∈ nodesToTraverse (fold_left (propagateToExit cur) l s) \/
  infoAt (nodeInfos (fold_left (propagateToExit cur) l s)) n
  = infoAt (nodeInfos s) n.
Proof.
  revert s. induction l as [|e l IH]; intros s; simpl; [by right|].
  destruct (IH (propagateToExit cur s e)) as [Hq|Hsame]; [by left|].
  destruct (propagateToExit_cases cur s e) as [Hpush|[_ Hinfo]].
  - destruct (decide (n = e)) as [->|Hne].
    + left. apply exitsLoop_stack_keeps. rewrite Hpush. by left.
    + right. rewrite Hsame, propagateToExit_infos, infoAt_insert.
      by case_decide.
  - right. by rewrite Hsame, Hinfo.
Qed.

Lemma exitsLoop_covers cur l s e :
  e ∈ l ->
  uninitializedVariableAccesses (infoAt (nodeInfos s) cur)
    ⊆ uninitializedVariableAccesses
        (infoAt (nodeInfos (fold_left (propagateToExit cur) l s)) e).
Proof.
  revert s. induction l as [|e0 l IH]; intros s He; simpl.
  - by apply elem_of_nil in He.
  - apply elem_of_cons in He as [->|He].
    + etrans; [|apply exitsLoop_grows].
      rewrite propagateToExit_infos, infoAt_insert.
      case_decide; [|done].
      rewrite propagateFrom_accesses. apply union_subseteq_r.
    + rewrite <- (propagateToExit_current cur s e0). by apply IH.
Qed.

Lemma flowInvariant_initial cfg _entry :
  flowInvariant cfg (initialState _entry).
Proof.
  intros n. right. intros e _. unfold infoAt. simpl.
  rewrite !lookup_empty. done.
Qed.

Lemma iteration_flowInvariant cfg s :
  flowInvariant cfg s -> flowInvariant cfg (iteration cfg s).
Proof.
  intros Hs n. pose proof (iteration_accesses_grow cfg s) as Hgrow.
  unfold iteration in *.
  destruct (nodesToTraverse s) as [|cur rest] eqn:Es.
  { exact (Hs n). }
  set (s1 := mkState _ rest) in *.
  destruct (decide (n = cur)) as [->|Hne].
  - right. intros e He. rewrite exitsLoop_current. by apply exitsLoop_covers.
  - destruct (Hs n) as [Hq|Hclosed].
    + left. apply exitsLoop_stack_keeps. rewrite Es in Hq.
      apply elem_of_cons in Hq as [Hq|Hq]; [done|exact Hq].
    + destruct (exitsLoop_queued_or_same cur (exits (node cfg cur)) s1 n)
        as [Hq|Hsame]; [by left|].
      right. intros e He. rewrite Hsame. subst s1. simpl.
      rewrite infoAt_insert. case_decide; [congruence|].
      etrans; [by apply Hclosed|apply Hgrow].
Qed.

Lemma traverse_flowInvariant cfg fuel s s' :
  traverse fuel cfg s = Some s' ->
  flowInvariant cfg s -> flowInvariant cfg s' /\ nodesToTraverse s' = [].
Proof.
  revert s. induction fuel as [|fuel IH]; intros s; simpl;
    destruct (nodesToTraverse s) eqn:Es; try done.
  - by intros [= <-].
  - by intros [= <-].
  - intros Ht Hs. apply (IH _ Ht). by apply iteration_flowInvariant.
Qed.

Lemma traverse_accesses_grow cfg fuel s s' n :
  traverse fuel cfg s = Some s' ->
  uninitializedVariableAccesses (infoAt (nodeInfos s) n)
    ⊆ uninitializedVariableAccesses (infoAt (nodeInfos s') n).
Proof.
  revert s. induction fuel as [|fuel IH]; intros s; simpl;
    destruct (nodesToTraverse s) eqn:Es; try done.
  - by intros [= <-].
  - by intros [= <-].
  - intros Ht. etrans; [apply (iteration_accesses_grow cfg)|by apply IH].
Qed.

Lemma pending_flows cfg _entry fuel s n m p :
  traverse fuel cfg (initialState _entry) = Some s ->
  reaches cfg n m ->
  p ∈ uninitializedVariableAccesses (infoAt (nodeInfos s) n) ->
  p ∈ uninitializedVariableAccesses (infoAt (nodeInfos s) m).
Proof.
  intros Ht Hnm.
  destruct (traverse_flowInvariant _ _ _ _ Ht (flowInvariant_initial cfg _entry))
    as [Hflow Hstack].
  induction Hnm as [n|n e m Hedge Hrest IH]; [done|].
  intros Hp. apply IH.
  destruct (Hflow n) as [Hq|Hclosed].
  - rewrite Hstack in Hq. by apply elem_of_nil in Hq.
  - by apply (Hclosed e).
Qed.

(** X10.  When the loop has ended, a pending access held for a block is
    held for every block that can be reached from it; so it is reported
    whenever the exit can be reached from a block that holds it. *)
Theorem pending_access_reported kindOrdinal lib fuel cfg _entry _exit
    reporter reporter' :
  Conforming lib ->
  checkUninitializedAccess kindOrdinal lib fuel cfg _entry _exit reporter
    = Some reporter' ->
  exists s reported,
    traverse fuel cfg (initialState _entry) = Some s /\
    reporter' = reporter ++ (diagnosticOf <$> reported) /\
    forall n p,
      p ∈ uninitializedVariableAccesses (infoAt (nodeInfos s) n) ->
      reaches cfg n _exit ->
      p ∈ reported.
Proof.
  intros Hlib H.
  apply (checkUninitializedAccess_returns _ _ Hlib) in H as (s & Ht & ->).
  exists s. eexists. split; [done|split; [done|]].
  intros n p Hp Hn. apply (elem_of_ordered _ _ Hlib).
  by eapply pending_flows.
Qed.

Lemma pending_access_reported_witness :
  let d := diagnosticOf (mkPtr 3%positive 0 (Examples.R Examples.x 20)) in
  Conforming referenceLibrary /\
  checkUninitializedAccess Examples.ordinal referenceLibrary 6
    Examples.lateAssignment 1%positive 2%positive [] = Some [d] /\
  exists s reported,
    traverse 6 Examples.lateAssignment (initialState 1%positive) = Some s /\
    [d] = [] ++ (diagnosticOf <$> reported) /\
    forall n p,
      p ∈ uninitializedVariableAccesses (infoAt (nodeInfos s) n) ->
      reaches Examples.lateAssignment n 2%positive ->
      p ∈ reported.
Proof.
  intros d.
  assert (checkUninitializedAccess Examples.ordinal referenceLibrary 6
            Examples.lateAssignment 1%positive 2%positive [] = Some [d])
    as H by (vm_compute; reflexivity).
  split; [exact referenceLibrary_conforming|split; [exact H|]].
  exact (pending_access_reported _ _ _ _ _ _ _ _
           referenceLibrary_conforming H).
Defined.

(** ** An unassigned access in the entry block *)

Lemma visitOccurrences_flags n i occs info j o :
  occs !! j = Some o -> kind o = Access ->
  decl_dataStoredInStorage (declaration o) = true ->
  declaration o ∈ unassignedBefore occs j (unassignedVariables info) ->
  mkPtr n (i + j)%nat o
    ∈ uninitializedVariableAccesses (visitOccurrences n i occs info).
Proof.
  revert i j info. induction occs as [|o0 rest IH]; intros i j info Hj Hk Hs Hu;
    [done|].
  destruct j as [|j]; simpl in *.
  - injection Hj as ->. apply visitOccurrences_accesses_mono.
    apply visitOccurrence_accesses. right. rewrite Nat.add_0_r. auto.
  - replace (i + S j)%nat with (S i + j)%nat by lia.
    apply IH; try done. by rewrite visitOccurrence_unassigned.
Qed.

(** X11.  An access in the entry block to a storage-located declaration
    that the block itself leaves unassigned in front of the access (it is
    declared there and not assigned since) is reported whenever the exit
    can be reached from the entry and the call returns. *)
Theorem entry_access_reported kindOrdinal lib fuel cfg _entry _exit
    reporter reporter' (i : nat) (o : VariableOccurrence) :
  Conforming lib ->
  checkUninitializedAccess kindOrdinal lib fuel cfg _entry _exit reporter
    = Some reporter' ->
  variableOccurrences (node cfg _entry) !! i = Some o ->
  kind o = Access ->
  decl_dataStoredInStorage (declaration o) = true ->
  declaration o
    ∈ unassignedBefore (variableOccurrences (node cfg _entry)) i ∅ ->
  reaches cfg _entry _exit ->
  exists reported,
    reporter' = reporter ++ (diagnosticOf <$> reported) /\
    mkPtr _entry i o ∈ reported.
Proof.
  intros Hlib H Hi Hk Hst Hu Hreach.
  apply (checkUninitializedAccess_returns _ _ Hlib) in H as (s & Ht & ->).
  eexists. split; [done|]. apply (elem_of_ordered _ _ Hlib).
  eapply pending_flows; [exact Ht|exact Hreach|].
  destruct fuel as [|fuel]; [done|]. simpl in Ht.
  eapply traverse_accesses_grow; [exact Ht|].
  rewrite (iteration_current cfg _ _entry []) by done.
  apply (visitOccurrences_flags _entry 0 _ _ i o); try done.
Qed.

Lemma entry_access_reported_witness :
  let o := Examples.R Examples.x 20 in
  let d := diagnosticOf (mkPtr 1%positive 1 o) in
  Conforming referenceLibrary /\
  checkUninitializedAccess Examples.ordinal referenceLibrary 2
    Examples.straight 1%positive 2%positive [] = Some [d] /\
  variableOccurrences (node Examples.straight 1%positive) !! 1%nat = Some o /\
  reaches Examples.straight 1%positive 2%positive /\
  exists reported,
    [d] = [] ++ (diagnosticOf <$> reported) /\
    mkPtr 1%positive 1 o ∈ reported.
Proof.
  intros o d.
  assert (checkUninitializedAccess Examples.ordinal referenceLibrary 2
            Examples.straight 1%positive 2%positive [] = Some [d])
    as H by (vm_compute; reflexivity).
  assert (reaches Examples.straight 1%positive 2%positive) as Hreach.
  { apply rtc_once. unfold edge. simpl. left. }
  assert (declaration o
            ∈ unassignedBefore
                (variableOccurrences (node Examples.straight 1%positive)) 1 ∅)
    as Hu.
  { unfold unassignedBefore, unassignedEffect. simpl.
    apply elem_of_union_l, elem_of_singleton. reflexivity. }
  split; [exact referenceLibrary_conforming|].
  split; [exact H|split; [reflexivity|split; [exact Hreach|]]].
  exact (entry_access_reported Examples.ordinal referenceLibrary 2
           Examples.straight 1%positive 2%positive [] [d] 1 o
           referenceLibrary_conforming H eq_refl eq_refl eq_refl Hu Hreach).
Defined.

(** ** Visiting a block again *)

Lemma elem_of_touched occs d :
  d ∈ touched occs <->
  exists o, o ∈ occs /\ kind o <> Access /\ declaration o = d.
Proof.
  unfold touched. rewrite elem_of_list_to_set, list_elem_of_fmap.
  split.
  - intros (o & -> & Ho). apply list_elem_of_filter in Ho as [Hk Ho]. eauto.
  - intros (o & Ho & Hk & <-). exists o. split; [done|].
    by apply list_elem_of_filter.
Qed.

Lemma unassignedEffect_split occs U d :
  d ∈ fold_left unassignedEffect occs U <->
  d ∈ fold_left unassignedEffect occs ∅ \/ (d ∈ U /\ d ∉ touched occs).
Proof.
  revert U. induction occs as [|o rest IH]; intros U; simpl.
  - rewrite elem_of_touched. split; [|set_solver].
    intros Hd. right. split; [done|]. intros (o & Ho & _).
    by apply elem_of_nil in Ho.
  - rewrite (IH (unassignedEffect U o)), (IH (unassignedEffect ∅ o)).
    assert (d ∈ touched (o :: rest) <->
            (kind o <> Access /\ declaration o = d) \/ d ∈ touched rest) as Ht.
    { rewrite !elem_of_touched. split.
      - intros (o' & Ho' & Hk & Hd).
        apply elem_of_cons in Ho' as [->|Ho']; [by left|right; eauto].
      - intros [[Hk Hd]|(o' & Ho' & Hk & Hd)].
        + exists o. split; [left|done].
        + exists o'. split; [by right|done]. }
    rewrite Ht. unfold unassignedEffect.
    destruct (decide (declaration o = d)) as [Hd|Hd];
      destruct (kind o) eqn:Hk;
      rewrite ?elem_of_union, ?elem_of_difference, ?elem_of_singleton;
      pose proof (not_elem_of_empty (C := gset VariableDeclaration) d);
      intuition congruence.
Qed.

Lemma unassignedEffect_from_empty occs d :
  d ∈ fold_left unassignedEffect occs ∅ -> d ∈ touched occs.
Proof.
  intros Hd. apply unassignedEffect_origin in Hd
    as [Hd|(i & o & Hi & Hk & Ho)]; [by apply not_elem_of_empty in Hd|].
  apply elem_of_touched. exists o.
  split; [by eapply list_elem_of_lookup_2|]. split; [congruence|done].
Qed.

(** X12.  Visiting a block a second time, starting from what the first
    visit left, leaves the unassigned variables as the first visit left
    them: a round for a block whose stored [NodeInfo] only gained pending
    accesses since its last round stores the same unassigned set again. *)
Theorem revisit_keeps_unassigned (currentNode : NodePtr) (i j : nat)
    (occs : list VariableOccurrence) (nodeInfo later : NodeInfo) :
  unassignedVariables later
    = unassignedVariables (visitOccurrences currentNode i occs nodeInfo) ->
  unassignedVariables (visitOccurrences currentNode j occs later)
  = unassignedVariables later.
Proof.
  intros Hl. rewrite visitOccurrences_unassigned, Hl.
  rewrite visitOccurrences_unassigned.
  apply set_eq. intros d.
  rewrite (unassignedEffect_split occs (fold_left _ _ _)).
  rewrite (unassignedEffect_split occs (unassignedVariables nodeInfo)).
  pose proof (unassignedEffect_from_empty occs d). tauto.
Qed.

Lemma revisit_keeps_unassigned_witness :
  let occs := [Examples.D Examples.x; Examples.A Examples.y 20] in
  let first := visitOccurrences 1%positive 0 occs (mkInfo {[Examples.y]} ∅) in
  unassignedVariables first = unassignedVariables first /\
  unassignedVariables (visitOccurrences 1%positive 0 occs first)
  = unassignedVariables first.
Proof.
  intros occs first. split; [reflexivity|].
  exact (revisit_keeps_unassigned 1%positive 0 0 occs
           (mkInfo {[Examples.y]} ∅) first eq_refl).
Defined.

(** ** The diagnostics themselves *)

(** X13.  Every diagnostic a call appends is a type error with the one
    message of this analysis, made for an access occurrence of the graph:
    if the occurrence has a bound syntax node, the diagnostic is located
    there and carries one secondary location, the declaration's, with the
    text "The variable was declared here."; if not, it is located at the
    declaration and carries no secondary location. *)
Theorem diagnostic_shape kindOrdinal lib fuel cfg _entry _exit
    reporter reporter' :
  Conforming lib ->
  checkUninitializedAccess kindOrdinal lib fuel cfg _entry _exit reporter
    = Some reporter' ->
  exists emitted,
    reporter' = reporter ++ emitted /\
    forall e, e ∈ emitted ->
      err_type e = TypeError /\
      err_message e =
        "This variable is of storage pointer type and is accessed without prior assignment."%string /\
      exists n i o,
        variableOccurrences (node cfg n) !! i = Some o /\ kind o = Access /\
        match occurrence o with
        | Some syntaxNode =>
            err_location e = node_location syntaxNode /\
            err_secondary e =
              [("The variable was declared here."%string,
                decl_location (declaration o))]
        | None =>
            err_location e = decl_location (declaration o) /\
            err_secondary e = []
        end.
Proof.
  intros Hlib H.
  apply (checkUninitializedAccess_returns _ _ Hlib) in H as (s & Ht & ->).
  destruct (traverse_result _ _ _ _ Ht) as [[_ Hheld] _].
  eexists. split; [done|]. intros e He.
  apply list_elem_of_fmap in He as (p & -> & Hp).
  apply (elem_of_ordered _ _ Hlib) in Hp.
  destruct (Hheld _ _ Hp) as ((Hv & Hk & _) & _).
  split; [done|split; [done|]].
  exists (ptr_node p), (ptr_index p), (pointee p).
  split; [exact Hv|split; [exact Hk|]].
  unfold diagnosticOf. simpl. by destruct (occurrence (pointee p)).
Qed.

Lemma diagnostic_shape_witness :
  let d := diagnosticOf (mkPtr 1%positive 1 (Examples.R Examples.x 20)) in
  Conforming referenceLibrary /\
  checkUninitializedAccess Examples.ordinal referenceLibrary 2
    Examples.straight 1%positive 2%positive [] = Some [d] /\
  exists emitted,
    [d] = [] ++ emitted /\
    forall e, e ∈ emitted ->
      err_type e = TypeError /\
      err_message e =
        "This variable is of storage pointer type and is accessed without prior assignment."%string /\
      exists n i o,
        variableOccurrences (node Examples.straight n) !! i = Some o /\
        kind o = Access /\
        match occurrence o with
        | Some syntaxNode =>
            err_location e = node_location syntaxNode /\
            err_secondary e =
              [("The variable was declared here."%string,
                decl_location (declaration o))]
        | None =>
            err_location e = decl_location (declaration o) /\
            err_secondary e = []
        end.
Proof.
  intros d.
  assert (checkUninitializedAccess Examples.ordinal referenceLibrary 2
            Examples.straight 1%positive 2%positive [] = Some [d])
    as H by (vm_compute; reflexivity).
  split; [exact referenceLibrary_conforming|split; [exact H|]].
  exact (diagnostic_shape _ _ _ _ _ _ _ _ referenceLibrary_conforming H).
Defined.
